(** * Reconciliation of a structure breakdown with executed documentation

    A shallow embedding of [DataProcessor] (file "Фо быстрое.py"): the header
    classifiers of [load_id_data] and [load_structure_data], the aggregator
    [create_pivot_table], the composite-key matcher [optimize_matching], the
    report builder [create_final_report], the driver [process_files] and the
    helper [normalize_text].

    Modelling conventions.
    - A Python [str] is a list of Unicode code points.  Literals are written
      as UTF-8 text and decoded by [u].
    - A pandas DataFrame is an ordered list of column names and a list of
      rows; a row maps a column name to a cell.  A cell is a text, a number
      or the missing value NaN.
    - Numbers are exact integers: floating-point rounding is outside the
      model, and sums are taken in [Z].
    - [str.lower] is modelled character by character by a parameter
      [lower_char] (CPython's [lower] is character-wise except for U+0130
      and the final-sigma rule); [\w] is the parameter [isword]; the numeric
      parser behind [pd.to_numeric] is the parameter [parse_number].
    - Logging and progress updates are left out, except where a log statement
      can raise: the exception is then part of the control flow. *)

From stdpp Require Import gmap list sorting strings.
From Stdlib Require Import ZArith NArith Lia.

Local Open Scope N_scope.

(** ** Python strings *)

Abbreviation char := N (only parsing).
Abbreviation str := (list N) (only parsing).

(** UTF-8 decoding of a literal, so that Cyrillic constants stay readable. *)
Fixpoint utf8 (bs : list N) : str :=
  match bs with
  | [] => []
  | b :: bs1 =>
    if b <? 128 then b :: utf8 bs1
    else match bs1 with
    | [] => [b]
    | b1 :: bs2 =>
      if b <? 224 then ((b - 192) * 64 + (b1 - 128)) :: utf8 bs2
      else match bs2 with
      | [] => [b]
      | b2 :: bs3 =>
        if b <? 240 then ((b - 224) * 4096 + (b1 - 128) * 64 + (b2 - 128)) :: utf8 bs3
        else match bs3 with
        | [] => [b]
        | b3 :: bs4 =>
          ((b - 240) * 262144 + (b1 - 128) * 4096 + (b2 - 128) * 64 + (b3 - 128))
            :: utf8 bs4
        end
      end
    end
  end.

Definition u (s : string) : str :=
  utf8 (map Ascii.N_of_ascii (String.list_ascii_of_string s)).

(** [str.isspace] on one code point; [str.strip] and the regular expression
    class [\s] use the same table in CPython. *)
Definition isspace (c : char) : bool :=
  ((9 <=? c) && (c <=? 13)) || ((28 <=? c) && (c <=? 32))
  || (c =? 133) || (c =? 160) || (c =? 5760)
  || ((8192 <=? c) && (c <=? 8202))
  || (c =? 8232) || (c =? 8233) || (c =? 8239) || (c =? 8287) || (c =? 12288).

Fixpoint lstrip (s : str) : str :=
  match s with
  | [] => []
  | c :: s' => if isspace c then lstrip s' else s
  end.

Definition rstrip (s : str) : str := rev (lstrip (rev s)).

(** [s.strip()] *)
Definition strip (s : str) : str := rstrip (lstrip s).

Fixpoint startswith (p s : str) : bool :=
  match p, s with
  | [], _ => true
  | _ :: _, [] => false
  | a :: p', b :: s' => (a =? b) && startswith p' s'
  end.

(** [needle in hay] *)
Fixpoint contains (needle hay : str) : bool :=
  startswith needle hay
  || match hay with
     | [] => false
     | _ :: hay' => contains needle hay'
     end.

(** Python's [<=] on strings: lexicographic on code points. *)
Fixpoint str_leb (s t : str) : bool :=
  match s, t with
  | [], _ => true
  | _ :: _, [] => false
  | a :: s', b :: t' => (a <? b) || ((a =? b) && str_leb s' t')
  end.

(** Decimal digits of a natural number, [str(n)]. *)
Fixpoint digits_of_uint (d : Decimal.uint) : str :=
  match d with
  | Decimal.Nil => []
  | Decimal.D0 d => 48 :: digits_of_uint d
  | Decimal.D1 d => 49 :: digits_of_uint d
  | Decimal.D2 d => 50 :: digits_of_uint d
  | Decimal.D3 d => 51 :: digits_of_uint d
  | Decimal.D4 d => 52 :: digits_of_uint d
  | Decimal.D5 d => 53 :: digits_of_uint d
  | Decimal.D6 d => 54 :: digits_of_uint d
  | Decimal.D7 d => 55 :: digits_of_uint d
  | Decimal.D8 d => 56 :: digits_of_uint d
  | Decimal.D9 d => 57 :: digits_of_uint d
  end.

Definition str_of_nat (n : nat) : str := digits_of_uint (Nat.to_uint n).

Definition str_of_Z (z : Z) : str :=
  match z with
  | Z0 => [48]
  | Zpos p => str_of_nat (Pos.to_nat p)
  | Zneg p => 45 :: str_of_nat (Pos.to_nat p)
  end.

(** ** The pandas fragment used by the program *)

Inductive cell :=
  | Text (s : str)
  | Num (z : Z)
  | NaN.

Global Instance cell_eq_dec : EqDecision cell.
Proof. solve_decision. Defined.

Global Instance cell_countable : Countable cell.
Proof.
  refine (inj_countable'
    (λ c, match c with Text s => inl s | Num z => inr (Some z) | NaN => inr None end)
    (λ x, match x with inl s => Text s | inr (Some z) => Num z | inr None => NaN end) _).
  by intros [].
Defined.

Abbreviation row := (gmap (list N) cell) (only parsing).

Record DataFrame := mkDF { columns : list str; rows : list row }.

(** [row[c]], NaN where the row has no value. *)
Definition get (r : row) (c : str) : cell := default NaN (r !! c).

(** [c in df.columns] *)
Definition has_col (df : DataFrame) (c : str) : bool := bool_decide (c ∈ columns df).

(** [df.empty]: one of the two axes has length 0. *)
Definition df_empty (df : DataFrame) : bool :=
  bool_decide (columns df = []) || bool_decide (rows df = []).

(** [df[c]] as a list of values, in row order. *)
Definition column (c : str) (df : DataFrame) : list cell := (λ r, get r c) <$> rows df.

(** [df[c] = f(row)]: an existing column is replaced in place, a new one is
    appended. *)
Definition assign (c : str) (f : row → cell) (df : DataFrame) : DataFrame :=
  {| columns := if has_col df c then columns df else columns df ++ [c];
     rows := (λ r, <[c := f r]> r) <$> rows df |}.

(** [df[c] = series], the series having the index of [df]. *)
Definition assign_values (c : str) (vs : list cell) (df : DataFrame) : DataFrame :=
  {| columns := if has_col df c then columns df else columns df ++ [c];
     rows := zip_with (λ r v, <[c := v]> r) (rows df) vs |}.

(** [df[mask]] *)
Definition filter_rows (keep : row → bool) (df : DataFrame) : DataFrame :=
  {| columns := columns df; rows := List.filter keep (rows df) |}.

(** [df[cols]] *)
Definition select (cols : list str) (df : DataFrame) : DataFrame :=
  {| columns := cols;
     rows := (λ r, list_to_map ((λ c, (c, get r c)) <$> cols)) <$> rows df |}.

(** [df.columns = names]: the values keep their position. *)
Definition set_columns (names : list str) (df : DataFrame) : DataFrame :=
  {| columns := names;
     rows := (λ r, list_to_map (zip names ((λ c, get r c) <$> columns df))) <$> rows df |}.

(** Element-wise Series operations. *)
Definition fillna (v c : cell) : cell :=
  match c with NaN => v | _ => c end.

Definition astype_str (c : cell) : cell :=
  match c with
  | Text s => Text s
  | Num z => Text (str_of_Z z)
  | NaN => Text (u "nan")
  end.

(** [.str.strip()]: a value that is not a string becomes NaN. *)
Definition str_strip (c : cell) : cell :=
  match c with Text s => Text (strip s) | _ => NaN end.

(** [+] on object values; a missing operand gives NaN. *)
Definition cell_add (a b : cell) : cell :=
  match a, b with
  | Text s, Text t => Text (s ++ t)
  | Num x, Num y => Num (x + y)
  | _, _ => NaN
  end.

(** [!=] *)
Definition cell_ne (a b : cell) : bool := bool_decide (a ≠ b).

(** The numeric value a cell adds to a pandas sum: NaN is skipped.  Volume
    columns hold numbers or NaN; a text there is outside the model and counts
    as 0 too. *)
Definition cell_num (c : cell) : Z :=
  match c with Num z => z | _ => 0%Z end.

Definition sum_Z (l : list Z) : Z := foldr Z.add 0%Z l.

(** Order used to sort group keys.  Keys of one column have one type in the
    program; the mixed cases only make the order total. *)
Definition cell_leb (a b : cell) : bool :=
  match a, b with
  | NaN, _ => true
  | Num _, NaN => false
  | Num x, Num y => (x <=? y)%Z
  | Num _, Text _ => true
  | Text s, Text t => str_leb s t
  | Text _, _ => false
  end.

Fixpoint key_leb (k1 k2 : list cell) : bool :=
  match k1, k2 with
  | [], _ => true
  | _ :: _, [] => false
  | a :: k1', b :: k2' =>
    if decide (a = b) then key_leb k1' k2' else cell_leb a b
  end.

Definition key_le (k1 k2 : list cell) : Prop := key_leb k1 k2.

Global Instance key_le_dec : RelDecision key_le.
Proof. intros k1 k2. unfold key_le. apply _. Defined.

Definition row_key (by_ : list str) (r : row) : list cell := (λ c, get r c) <$> by_.

(** The keys of [df.groupby(by_)]: rows with a missing key value are dropped,
    each key occurs once, keys are sorted. *)
Definition group_keys (by_ : list str) (df : DataFrame) : list (list cell) :=
  merge_sort key_le
    (remove_dups (List.filter (λ k, bool_decide (NaN ∉ k)) (row_key by_ <$> rows df))).

Definition group_rows (by_ : list str) (k : list cell) (df : DataFrame) : list row :=
  List.filter (λ r, bool_decide (row_key by_ r = k)) (rows df).

Definition group_total (c : str) (grp : list row) : Z :=
  sum_Z ((λ r, cell_num (get r c)) <$> grp).

(** [df.groupby(by_, as_index=False)[aggs].sum()] *)
Definition groupby_sum (by_ aggs : list str) (df : DataFrame) : DataFrame :=
  {| columns := by_ ++ aggs;
     rows := (λ k, list_to_map
                (zip by_ k ++
                 ((λ c, (c, Num (group_total c (group_rows by_ k df)))) <$> aggs)))
             <$> group_keys by_ df |}.

(** [df.rename(columns=mapping)] on the header list. *)
Definition rename_columns (mapping : gmap (list N) (list N)) (cols : list str) : list str :=
  (λ c, default c (mapping !! c)) <$> cols.

(** ** Canonical column names *)

(** Structure schema. *)
Definition Project : str := Eval vm_compute in u "Проект".
Definition Mark : str := Eval vm_compute in u "Марка".
Definition Component : str := Eval vm_compute in u "Конструкция".
Definition ClassifiedWorkType : str := Eval vm_compute in u "Вид_работ_по_классификатору".
Definition Unit_ : str := Eval vm_compute in u "Ед_изм".
Definition PlannedVolume : str := Eval vm_compute in u "Проектный_объем".
Definition ExecutedVolume : str := Eval vm_compute in u "Выполнено_в_натуре".
Definition RFIAcceptedVolume : str := Eval vm_compute in u "Принято_по_RFI".
Definition ConfirmedByDocs : str := Eval vm_compute in u "Подтверждено_ИД".

(** Documentation schema. *)
Definition PackageCode : str := Eval vm_compute in u "Шифр_комплекта".
Definition StructuralElement : str := Eval vm_compute in u "Конструктивный_элемент".
Definition WorkType : str := Eval vm_compute in u "Вид_работ".
Definition DocumentedVolume : str := Eval vm_compute in u "Объем_по_документу".

Definition composite_key : str := Eval vm_compute in u "composite_key".
Definition SEP : str := Eval vm_compute in u "|||".

(** ** The program *)

Section Program.

Variable lower_char : char → char.
Variable isword : char → bool.
Variable parse_number : str → option Z.

(** [s.lower()] *)
Definition lower (s : str) : str := lower_char <$> s.

(** *** normalize_text *)

(** [re.sub(r'\s+', ' ', s)]: a whitespace character yields a blank when it
    ends its run and nothing otherwise. *)
Fixpoint sub_spaces (s : str) : str :=
  match s with
  | [] => []
  | c :: s' =>
    if isspace c then
      match s' with
      | [] => [32]
      | c' :: _ => if isspace c' then sub_spaces s' else 32 :: sub_spaces s'
      end
    else c :: sub_spaces s'
  end.

(** [re.sub(r'[^\w\s]', '', s)] *)
Definition sub_punct (s : str) : str :=
  List.filter (λ c, isword c || isspace c) s.

Definition normalize_text (text : cell) : str :=
  match text with
  | Text s =>
    let text := strip (lower s) in
    let text := sub_spaces text in
    let text := sub_punct text in
    text
  | _ => []
  end.

(** *** clean_dataframe_columns *)

Definition dup_name (col : str) (counter : nat) : str :=
  col ++ u "_dup" ++ str_of_nat counter.

(** The [while new_col_name in seen_columns] loop; it stops after at most
    [size seen] increments, which is the fuel it is run with. *)
Fixpoint next_dup (fuel : nat) (seen : gset (list N)) (col : str) (counter : nat) : nat :=
  match fuel with
  | O => counter
  | S fuel' =>
    if bool_decide (dup_name col counter ∈ seen)
    then next_dup fuel' seen col (S counter)
    else counter
  end.

Definition dedup_step (st : list str * gset (list N)) (col : str)
  : list str * gset (list N) :=
  let '(new_columns, seen_columns) := st in
  if bool_decide (col ∉ seen_columns) then
    (new_columns ++ [col], {[col]} ∪ seen_columns)
  else
    let new_col_name := dup_name col (next_dup (size seen_columns) seen_columns col 1) in
    (new_columns ++ [new_col_name], {[new_col_name]} ∪ seen_columns).

Definition dedup_columns (cols : list str) : list str :=
  (foldl dedup_step ([], ∅) cols).1.

(** The header list [clean_dataframe_columns] leaves (flat headers). *)
Definition clean_column_names (cols : list str) : list str :=
  let cols := strip <$> cols in
  if bool_decide (NoDup cols) then cols else dedup_columns cols.

Definition clean_dataframe_columns (df : DataFrame) : DataFrame :=
  set_columns (clean_column_names (columns df)) df.

(** *** Header classification *)

(** [target in column_mapping.values()] *)
Definition assigned (target : str) (column_mapping : gmap (list N) (list N)) : bool :=
  bool_decide (target ∈ (map_img column_mapping : gset (list N))).

(** The keyword tests of [load_id_data], on the lowered header. *)
Definition is_documented_volume (col_name : str) : bool :=
  let volume_condition1 :=
    contains (u "объём по документу") col_name && contains (u "work scopes") col_name in
  let volume_condition2 :=
    contains (u "объем по документу") col_name && contains (u "work scopes") col_name in
  volume_condition1 || volume_condition2.

Definition is_package_code (col_name : str) : bool :=
  (contains (u "шифры комплектов рд") col_name
   && contains (u "detailed design documents sections") col_name)
  || (contains (u "шифры комплектов") col_name && contains (u "detailed design") col_name)
  || contains (u "шифры комплектов рд") col_name
  || contains (u "detailed design documents sections") col_name
  || (contains (u "шифр") col_name && contains (u "комплект") col_name
      && contains (u "рд") col_name).

Definition is_structural_element (col_name : str) : bool :=
  contains (u "конструктив") col_name || contains (u "construction") col_name
  || contains (u "элемент") col_name || contains (u "element") col_name
  || contains (u "конструкц") col_name || contains (u "конструкции") col_name.

Definition is_work_type (col_name : str) : bool :=
  contains (u "вид работ") col_name || contains (u "works") col_name
  || contains (u "work") col_name || contains (u "type of work") col_name
  || contains (u "вид_работ") col_name
  || (contains (u "type of") col_name && contains (u "work") col_name).

(** One iteration of the loop of [load_id_data] over [df.columns]: each
    [if] ends in [continue]. *)
Definition id_step (column_mapping : gmap (list N) (list N)) (col : str)
  : gmap (list N) (list N) :=
  let col_name := lower col in
  if negb (assigned DocumentedVolume column_mapping) && is_documented_volume col_name
  then <[col := DocumentedVolume]> column_mapping
  else if negb (assigned PackageCode column_mapping) && is_package_code col_name
  then <[col := PackageCode]> column_mapping
  else if negb (assigned StructuralElement column_mapping) && is_structural_element col_name
  then <[col := StructuralElement]> column_mapping
  else if negb (assigned WorkType column_mapping) && is_work_type col_name
  then <[col := WorkType]> column_mapping
  else column_mapping.

Definition id_column_mapping (cols : list str) : gmap (list N) (list N) :=
  foldl id_step ∅ cols.

(** One iteration of the loop of [load_structure_data]: an [if]/[elif]
    chain whose conditions carry the "not yet assigned" guard. *)
Definition structure_step (column_mapping : gmap (list N) (list N)) (col : str)
  : gmap (list N) (list N) :=
  let col_name := lower col in
  if contains (u "проект") col_name && negb (assigned Project column_mapping)
  then <[col := Project]> column_mapping
  else if (contains (u "марка") col_name || contains (u "шифр") col_name)
          && negb (assigned Mark column_mapping)
  then <[col := Mark]> column_mapping
  else if contains (u "конструкция") col_name && negb (assigned Component column_mapping)
  then <[col := Component]> column_mapping
  else if contains (u "вид работ") col_name
          && negb (assigned ClassifiedWorkType column_mapping)
  then <[col := ClassifiedWorkType]> column_mapping
  else if contains (u "ед. изм") col_name && negb (assigned Unit_ column_mapping)
  then <[col := Unit_]> column_mapping
  else if contains (u "проектный объем") col_name
          && negb (assigned PlannedVolume column_mapping)
  then <[col := PlannedVolume]> column_mapping
  else if contains (u "выполнено в натуре") col_name
          && negb (assigned ExecutedVolume column_mapping)
  then <[col := ExecutedVolume]> column_mapping
  else if contains (u "принято по rfi") col_name
          && negb (assigned RFIAcceptedVolume column_mapping)
  then <[col := RFIAcceptedVolume]> column_mapping
  else column_mapping.

Definition structure_column_mapping (cols : list str) : gmap (list N) (list N) :=
  foldl structure_step ∅ cols.

(** Both loops as one table-driven loop: the rules in the order the source
    tests them, each a canonical field with its keyword test.  A header
    takes the field of the first rule whose field is still free and whose
    test it passes. *)
Definition rule_fires (column_mapping : gmap (list N) (list N)) (col_name : str)
    (r : list N * (list N → bool)) : bool :=
  negb (assigned r.1 column_mapping) && r.2 col_name.

Definition rule_step (rules : list (list N * (list N → bool)))
    (column_mapping : gmap (list N) (list N)) (col : str) : gmap (list N) (list N) :=
  match List.find (rule_fires column_mapping (lower col)) rules with
  | Some r => <[col := r.1]> column_mapping
  | None => column_mapping
  end.

Definition classify (rules : list (list N * (list N → bool))) (cols : list str)
  : gmap (list N) (list N) :=
  foldl (rule_step rules) ∅ cols.

Definition id_rules : list (list N * (list N → bool)) :=
  [(DocumentedVolume, is_documented_volume);
   (PackageCode, is_package_code);
   (StructuralElement, is_structural_element);
   (WorkType, is_work_type)].

Definition structure_rules : list (list N * (list N → bool)) :=
  [(Project, contains (u "проект"));
   (Mark, λ col_name, contains (u "марка") col_name || contains (u "шифр") col_name);
   (Component, contains (u "конструкция"));
   (ClassifiedWorkType, contains (u "вид работ"));
   (Unit_, contains (u "ед. изм"));
   (PlannedVolume, contains (u "проектный объем"));
   (ExecutedVolume, contains (u "выполнено в натуре"));
   (RFIAcceptedVolume, contains (u "принято по rfi"))].

(** *** load_id_data *)

Definition id_text_cols : list str := [PackageCode; StructuralElement; WorkType].
Definition id_needed_cols : list str :=
  [PackageCode; StructuralElement; WorkType; DocumentedVolume].

(** [pd.to_numeric(series, errors='coerce')] on one value. *)
Definition to_numeric (c : cell) : cell :=
  match c with
  | Text s => match parse_number s with Some z => Num z | None => NaN end
  | _ => c
  end.

(** [col in available_cols for col in needed_cols if col in df.columns] *)
Definition available (needed cols : list str) : list str :=
  List.filter (λ col, bool_decide (col ∈ cols)) needed.

(** The test of lines 268-269. *)
Definition id_insufficient (available_cols : list str) : bool :=
  negb (bool_decide (PackageCode ∈ available_cols))
  || negb (bool_decide (DocumentedVolume ∈ available_cols))
  || (length available_cols <? 2)%nat.

(** The cleaning loop over [df.columns] (lines 276-316). *)
Definition id_clean_col (df : DataFrame) (col : str) : DataFrame :=
  if bool_decide (col ∈ id_text_cols) then
    assign col (λ r, str_strip (astype_str (fillna (Text []) (get r col)))) df
  else if bool_decide (col = DocumentedVolume) then
    assign col (λ r, fillna (Num 0) (to_numeric (get r col))) df
  else df.

(** The mask of lines 323-339. *)
Definition id_mask (df : DataFrame) (r : row) : bool :=
  forallb (λ col, if has_col df col
                  then cell_ne (str_strip (get r col)) (Text [])
                  else true) id_text_cols.

(** The table is the sheet as read with the detected header row.  The result
    is [None] where the source returns [None], also through its handler of
    exceptions. *)
Definition load_id_data (df : DataFrame) : option DataFrame :=
  if df_empty df then None
  else
    let df := clean_dataframe_columns df in
    let column_mapping := id_column_mapping (columns df) in
    (* df.rename(columns=column_mapping), then clean_dataframe_columns *)
    let df := set_columns
                (clean_column_names (rename_columns column_mapping (columns df))) df in
    let available_cols := available id_needed_cols (columns df) in
    if id_insufficient available_cols then None
    else
      let df := select available_cols df in
      let df := foldl id_clean_col df (columns df) in
      let df := filter_rows (id_mask df) df in
      (* the sample log of lines 348-353 reads all four columns of the
         first rows: a missing one raises KeyError, handled at line 357 *)
      if (0 <? length (rows df))%nat && negb (forallb (has_col df) id_needed_cols)
      then None
      else Some df.

(** *** load_structure_data *)

Definition structure_text_cols : list str :=
  [Project; Mark; Component; ClassifiedWorkType; Unit_].
Definition structure_numeric_cols : list str :=
  [PlannedVolume; ExecutedVolume; RFIAcceptedVolume].

(** The test of line 424. *)
Definition structure_insufficient (available_cols : list str) : bool :=
  (length available_cols <? 3)%nat.

(** The cleaning loop of lines 429-433. *)
Definition structure_clean_col (df : DataFrame) (col : str) : DataFrame :=
  if bool_decide (col ∈ structure_text_cols) then
    assign col (λ r, str_strip (astype_str (fillna (Text []) (get r col)))) df
  else if bool_decide (col ∈ structure_numeric_cols) then
    assign col (λ r, fillna (Num 0) (to_numeric (get r col))) df
  else df.

Definition load_structure_data (df : DataFrame) : option DataFrame :=
  if df_empty df then None
  else
    let df := clean_dataframe_columns df in
    let column_mapping := structure_column_mapping (columns df) in
    let names := rename_columns column_mapping (columns df) in
    let available_cols := available structure_text_cols names in
    if structure_insufficient available_cols then None
    (* a label occurring twice after the renaming is a canonical one: the
       cleaning loop then gets a DataFrame for [df[col]] and raises, which
       the handler of line 438 turns into None *)
    else if negb (bool_decide (NoDup names)) then None
    else
      let df := set_columns names df in
      Some (foldl structure_clean_col df (columns df)).

(** *** create_pivot_table *)

Definition required_cols : list str := structure_text_cols.
Definition numeric_cols : list str := structure_numeric_cols.
Definition groupby_cols : list str := structure_text_cols.

(** Lines 455-458: a volume column that is missing is added, filled with 0. *)
Definition add_numeric_cols (structure_df : DataFrame) : DataFrame :=
  foldl (λ df col, if has_col df col then df else assign col (λ _, Num 0) df)
        structure_df numeric_cols.

(** Lines 461-464. *)
Definition clean_groupby_cols (structure_df : DataFrame) : DataFrame :=
  foldl (λ df col, if has_col df col
                   then assign col (λ r, str_strip (astype_str (get r col))) df
                   else df)
        structure_df groupby_cols.

Definition create_pivot_table (structure_df : DataFrame) : option DataFrame :=
  let missing_cols :=
    List.filter (λ col, negb (has_col structure_df col)) required_cols in
  if negb (bool_decide (missing_cols = [])) then None
  else
    let structure_df := add_numeric_cols structure_df in
    let structure_df := clean_groupby_cols structure_df in
    let pivot_df := groupby_sum groupby_cols numeric_cols structure_df in
    Some (assign ConfirmedByDocs (λ _, Num 0) pivot_df).

(** *** optimize_matching *)

Definition required_id_cols : list str :=
  [PackageCode; StructuralElement; WorkType; DocumentedVolume].
Definition structure_key_cols : list str := [Project; Component; ClassifiedWorkType].
Definition id_key_cols : list str := [PackageCode; StructuralElement; WorkType].

(** [.fillna('').astype(str).str.strip()] on the key columns that exist. *)
Definition clean_keys (cols : list str) (df : DataFrame) : DataFrame :=
  foldl (λ df col, if has_col df col
                   then assign col (λ r, str_strip (astype_str (fillna (Text []) (get r col)))) df
                   else df)
        df cols.

(** [df[a].str.strip() + "|||" + df[b].str.strip() + "|||" + df[c].str.strip()] *)
Definition make_key (a b c : str) (r : row) : cell :=
  cell_add (cell_add (cell_add (cell_add (str_strip (get r a)) (Text SEP))
                               (str_strip (get r b))) (Text SEP))
           (str_strip (get r c)).

(** [series.map(d)] on one value. *)
Definition map_dict (d : gmap cell cell) (k : cell) : cell := default NaN (d !! k).

Definition optimize_matching (pivot_df id_df : DataFrame) : DataFrame :=
  let missing_id_cols := List.filter (λ col, negb (has_col id_df col)) required_id_cols in
  if negb (bool_decide (missing_id_cols = [])) then pivot_df
  else
    let structure_df := clean_keys structure_key_cols pivot_df in
    let id_df_work := clean_keys id_key_cols id_df in
    let id_df_work :=
      filter_rows (λ r, cell_ne (get r PackageCode) (Text [])
                        && cell_ne (get r StructuralElement) (Text [])
                        && cell_ne (get r WorkType) (Text [])) id_df_work in
    (* structure_df['Проект'] and its two siblings raise KeyError when the
       column is missing; the handler of line 620 returns pivot_df *)
    if negb (forallb (has_col structure_df) structure_key_cols) then pivot_df
    else
      let structure_df :=
        assign composite_key (make_key Project Component ClassifiedWorkType) structure_df in
      let id_df_work :=
        assign composite_key (make_key PackageCode StructuralElement WorkType) id_df_work in
      let id_grouped := groupby_sum [composite_key] [DocumentedVolume] id_df_work in
      let id_volume_dict : gmap cell cell :=
        list_to_map (zip (column composite_key id_grouped)
                         (column DocumentedVolume id_grouped)) in
      let structure_df :=
        assign ConfirmedByDocs
               (λ r, fillna (Num 0) (map_dict id_volume_dict (get r composite_key)))
               structure_df in
      assign_values ConfirmedByDocs (column ConfirmedByDocs structure_df) pivot_df.

(** *** create_final_report *)

Definition report_names : gmap (list N) (list N) :=
  list_to_map
    [(ClassifiedWorkType, u "Вид работ по классификатору");
     (Unit_, u "Ед. изм.");
     (PlannedVolume, u "Проектный объем");
     (ExecutedVolume, u "Выполнено в натуре");
     (RFIAcceptedVolume, u "Принято по RFI (технадзор)");
     (ConfirmedByDocs, u "Подтверждено ИД")].

Definition column_order : list str :=
  [u "Проект"; u "Марка"; u "Конструкция"; u "Вид работ по классификатору";
   u "Ед. изм."; u "Проектный объем"; u "Выполнено в натуре";
   u "Принято по RFI (технадзор)"; u "Подтверждено ИД"].

Definition create_final_report (pivot_df : DataFrame) : DataFrame :=
  let final_df := set_columns (rename_columns report_names (columns pivot_df)) pivot_df in
  let existing_columns := available column_order (columns final_df) in
  select existing_columns final_df.

(** *** process_files *)

(** The two tables are the sheets read from the two files found in the
    folder.  The result is the report handed to [to_excel], or [None] when
    the run ends without writing one. *)
Definition process_files (structure_sheet id_sheet : DataFrame) : option DataFrame :=
  structure_df ← load_structure_data structure_sheet;
  id_df ← load_id_data id_sheet;
  pivot_df ← create_pivot_table structure_df;
  let result_df := optimize_matching pivot_df id_df in
  Some (create_final_report result_df).

End Program.

(** ** An instance of the parameters: Basic Latin and Cyrillic *)

(** [str.lower] on the Basic Latin and Cyrillic blocks. *)
Definition lower_latin_cyrillic (c : char) : char :=
  if (65 <=? c) && (c <=? 90) then c + 32
  else if (1040 <=? c) && (c <=? 1071) then c + 32
  else if (1024 <=? c) && (c <=? 1039) then c + 80
  else c.

(** [\w] on the same blocks: digits, letters and the underscore. *)
Definition isword_latin_cyrillic (c : char) : bool :=
  ((48 <=? c) && (c <=? 57)) || ((65 <=? c) && (c <=? 90)) || (c =? 95)
  || ((97 <=? c) && (c <=? 122)) || ((1024 <=? c) && (c <=? 1119)).

(** A parser of unsigned decimal integers. *)
Fixpoint parse_digits (acc : Z) (s : str) : option Z :=
  match s with
  | [] => Some acc
  | c :: s' =>
    if (48 <=? c) && (c <=? 57)
    then parse_digits (10 * acc + Z.of_N (c - 48))%Z s'
    else None
  end.

Definition parse_unsigned (s : str) : option Z :=
  match s with [] => None | _ => parse_digits 0%Z s end.

(** ** Vocabulary of the statements *)

(** A key field after [.fillna('').astype(str).str.strip()]. *)
Definition normalized (c : cell) : str :=
  match str_strip (astype_str (fillna (Text []) c)) with
  | Text s => s
  | _ => []
  end.

(** The three key fields of a structure row and of a documentation row. *)
Definition structure_key3 (r : row) : str * str * str :=
  (normalized (get r Project), normalized (get r Component),
   normalized (get r ClassifiedWorkType)).

Definition id_key3 (d : row) : str * str * str :=
  (normalized (get d PackageCode), normalized (get d StructuralElement),
   normalized (get d WorkType)).

(** The composite key the matcher builds from three key fields. *)
Definition joined (k : str * str * str) : str :=
  k.1.1 ++ SEP ++ k.1.2 ++ SEP ++ k.2.

(** No key field is empty: the filter of lines 513-517. *)
Definition complete (k : str * str * str) : bool :=
  negb (bool_decide (k.1.1 = [])) && negb (bool_decide (k.1.2 = []))
  && negb (bool_decide (k.2 = [])).

(** The documentation rows that survive the filter and carry the composite
    key of the structure row [r]. *)
Definition matching_rows (id_df : DataFrame) (r : row) : list row :=
  List.filter (λ d, complete (id_key3 d)
                    && bool_decide (joined (id_key3 d) = joined (structure_key3 r)))
              (rows id_df).

Definition matched_volume (id_df : DataFrame) (r : row) : Z :=
  sum_Z ((λ d, cell_num (get d DocumentedVolume)) <$> matching_rows id_df r).

(** The character '|' of the separator does not occur. *)
Definition bar_free (s : str) : Prop := 124 ∉ s.

(** ** Auxiliary definitions of the statements and example tables *)

(** A row after [df[col] = g(df[col])] for the columns of [cols] that exist. *)
Definition update_row (g : cell → cell) (has : list N → bool) (cols : list (list N))
    (r : gmap (list N) cell) : gmap (list N) cell :=
  foldl (λ r col, if has col then <[col := g (get r col)]> r else r) r cols.

Arguments update_row : simpl never.

(** The key fields cleaned by the matcher. *)
Definition clean_row : (list N → bool) → list (list N) → gmap (list N) cell
    → gmap (list N) cell :=
  update_row (λ c, str_strip (astype_str (fillna (Text []) c))).

Arguments clean_row : simpl never.

(** The structure row with its cleaned key fields and its composite key, as
    the matcher prepares it. *)
Definition keyed (has : list N → bool) (cols : list (list N)) (a b c : list N)
    (r : gmap (list N) cell) : gmap (list N) cell :=
  <[composite_key := make_key a b c (clean_row has cols r)]> (clean_row has cols r).

Definition can_match (pivot_df id_df : DataFrame) : bool :=
  forallb (has_col id_df) required_id_cols
  && forallb (has_col pivot_df) structure_key_cols.

Definition bar_free_key (k : list N * list N * list N) : Prop :=
  bar_free k.1.1 ∧ bar_free k.1.2 ∧ bar_free k.2.

(** A row after [df[col] = v] for the columns of [cols] that are missing. *)
Definition add_row (v : cell) (has : list N → bool) (cols : list (list N))
    (r : gmap (list N) cell) : gmap (list N) cell :=
  foldl (λ r col, if has col then r else <[col := v]> r) r cols.

Arguments add_row : simpl never.

(** The value a group key takes from a cell (line 464). *)
Definition group_cell (c : cell) : cell := str_strip (astype_str c).

(** The 5-tuple under which the aggregator groups a row. *)
Definition group_key5 (r : gmap (list N) cell) : list cell :=
  (λ c, group_cell (get r c)) <$> groupby_cols.


(** A row as the aggregator prepares it before grouping. *)
Definition prepared (df : DataFrame) (r : gmap (list N) cell) : gmap (list N) cell :=
  update_row group_cell (has_col (add_numeric_cols df)) groupby_cols
             (add_row (Num 0) (has_col df) numeric_cols r).

(** The row the aggregator emits for the group key [k]. *)
Definition pivot_row (df : DataFrame) (k : list cell) : gmap (list N) cell :=
  <[ConfirmedByDocs := Num 0]>
    (list_to_map
       (zip groupby_cols k ++
        ((λ c, (c, Num (group_total c
                         (group_rows groupby_cols k
                            (clean_groupby_cols (add_numeric_cols df)))))) <$> numeric_cols))).

Definition pivot_columns : list (list N) :=
  groupby_cols ++ numeric_cols ++ [ConfirmedByDocs].

(** The first character is a whitespace character. *)
Definition starts_space (s : list N) : bool :=
  match s with [] => false | c :: _ => isspace c end.

(** Every whitespace character is a blank and no two are adjacent. *)
Fixpoint collapsed (s : list N) : bool :=
  match s with
  | [] => true
  | c :: s' =>
    (if isspace c then (c =? 32) && negb (starts_space s') else true) && collapsed s'
  end.

(** The text holds only word and whitespace characters. *)
Definition no_punctuation (isword : N → bool) (s : list N) : Prop :=
  Forall (λ c, isword c || isspace c = true) s.

(** The header already holds a field that is tested before the rule at hand. *)
Definition taken (before : list (list N * (list N → bool)))
    (m : gmap (list N) (list N)) (h : list N) : bool :=
  match m !! h with
  | Some G => bool_decide (G ∈ before.*1)
  | None => false
  end.

(** The header passes the test [t] and holds no field tested before it. *)
Definition candidate (lower_char : N → N) (before : list (list N * (list N → bool)))
    (t : list N → bool) (m : gmap (list N) (list N)) (h : list N) : bool :=
  t (lower lower_char h) && negb (taken before m h).

(** The schema of a table: its rules and the mapping its loader computes. *)
Definition schema_mapping (lower_char : N → N) (rules : list (list N * (list N → bool)))
    (hs : list (list N)) (m : gmap (list N) (list N)) : Prop :=
  (rules = id_rules ∧ m = id_column_mapping lower_char hs)
  ∨ (rules = structure_rules ∧ m = structure_column_mapping lower_char hs).

(** The first rule, in the order of the source, whose test a header passes. *)
Definition first_rule (rules : list (list N * (list N → bool))) (col_name : list N)
  : option (list N) :=
  (λ r, r.1) <$> List.find (λ r, r.2 col_name) rules.

(** The claim read on the keyword tests alone: the header retained for a
    field is the first one that passes the test of the field. *)
Definition retains_first_passing (lower_char : N → N)
    (rules : list (list N * (list N → bool))) (hs : list (list N)) : Prop :=
  ∀ F t h, (F, t) ∈ rules → classify lower_char rules hs !! h = Some F →
    List.find (λ h', t (lower lower_char h')) hs = Some h.

(** The claim read with the priorities: the header retained for a field is
    the first one whose first passed test is that of the field. *)
Definition retains_first_candidate (lower_char : N → N)
    (rules : list (list N * (list N → bool))) (hs : list (list N)) : Prop :=
  ∀ F h, classify lower_char rules hs !! h = Some F →
    List.find (λ h', bool_decide (first_rule rules (lower lower_char h') = Some F)) hs
    = Some h.

Definition ex_volume1 : list N := u "Объем по документу / Work scopes".
Definition ex_volume2 : list N := u "Объем по документу, ед. / Work scopes, unit".
Definition ex_work1 : list N := u "Вид работ / Type of work".
Definition ex_work2 : list N := u "Вид работ (уточнение) / Works".
Definition ex_id_headers : list (list N) := [ex_volume1; ex_volume2; ex_work1; ex_work2].

Definition ex_structure_headers : list (list N) :=
  [u "Проект"; u "Марка"; u "Конструкция"; u "Вид работ"; u "Ед. изм.";
   u "Проектный объем"; u "Выполнено в натуре"; u "Принято по RFI"].

(** The header list of the documentation table after the renaming and the
    second cleaning (lines 255-258): what the test of line 268 looks at. *)
Definition id_columns (lower_char : N → N) (df : DataFrame) : list (list N) :=
  clean_column_names
    (rename_columns (id_column_mapping lower_char (clean_column_names (columns df)))
                    (clean_column_names (columns df))).

(** The header list of the structure table after the renaming (line 418). *)
Definition structure_columns (lower_char : N → N) (df : DataFrame) : list (list N) :=
  rename_columns (structure_column_mapping lower_char (clean_column_names (columns df)))
                 (clean_column_names (columns df)).

(** A documentation table is below the threshold of line 268. *)
Definition id_below_threshold (lower_char : N → N) (df : DataFrame) : Prop :=
  PackageCode ∉ id_columns lower_char df
  ∨ DocumentedVolume ∉ id_columns lower_char df
  ∨ (length (available id_needed_cols (id_columns lower_char df)) < 2)%nat.

(** A structure table is below the threshold of line 424. *)
Definition structure_below_threshold (lower_char : N → N) (df : DataFrame) : Prop :=
  (length (available structure_text_cols (structure_columns lower_char df)) < 3)%nat.




Definition structure_row (project mark component work_type unit_ : list N) (planned : Z)
  : gmap (list N) cell :=
  list_to_map [(Project, Text project); (Mark, Text mark); (Component, Text component);
               (ClassifiedWorkType, Text work_type); (Unit_, Text unit_);
               (PlannedVolume, Num planned)].

Definition id_row (code element work_type : list N) (volume : Z) : gmap (list N) cell :=
  list_to_map [(PackageCode, Text code); (StructuralElement, Text element);
               (WorkType, Text work_type); (DocumentedVolume, Num volume)].

Definition ex_structure_cols : list (list N) :=
  [Project; Mark; Component; ClassifiedWorkType; Unit_; PlannedVolume].

(** Scenario A of the specification. *)
Definition ex_row_A : gmap (list N) cell :=
  structure_row (u "AB-12") (u "KZh") (u "Wall-1") (u "Concreting") (u "m3") 100.
Definition ex_pivot_A : DataFrame := mkDF ex_structure_cols [ex_row_A].
Definition ex_id_A : DataFrame :=
  mkDF id_needed_cols
       [id_row (u "AB-12") (u "Wall-1") (u "Concreting") 50;
        id_row (u "AB-12") (u " Wall-1 ") (u "Concreting") 30].

(** Scenario D of the specification. *)
Definition ex_structure_D : DataFrame :=
  mkDF ex_structure_cols
       [structure_row (u "AB-12") (u "KZh") (u "Wall-1") (u "Concreting") (u "m3") 40;
        structure_row (u "AB-12") (u "KZh") (u "Wall-1") (u "Concreting") (u "m3") 60].


(** A documentation table without the work type column, with no row left. *)
Definition ex_id_no_work_type : DataFrame :=
  mkDF [PackageCode; StructuralElement; DocumentedVolume] [].

(** Key fields that differ in the amount of inner whitespace only. *)
Definition ex_row_spaces : gmap (list N) cell :=
  structure_row (u "AB-12") (u "KZh") (u "Wall  1") (u "Concreting") (u "m3") 100.
Definition ex_pivot_spaces : DataFrame := mkDF ex_structure_cols [ex_row_spaces].
Definition ex_id_spaces : DataFrame :=
  mkDF id_needed_cols [id_row (u "AB-12") (u "Wall 1") (u "Concreting") 50].

(** Key fields that differ in case only. *)
Definition ex_id_case : DataFrame :=
  mkDF id_needed_cols [id_row (u "ab-12") (u "wall-1") (u "concreting") 50].



(** A header written by the renaming loop for the header [c]: [c] itself or
    [c] with a suffix [_dup<k>], k >= 1. *)
Definition renamed_from (c n : list N) : Prop :=
  n = c ∨ ∃ k, (1 ≤ k)%nat ∧ n = dup_name c k.

(** A sheet with two headers that coincide once trimmed. *)
Definition ex_sheet_dup_headers : DataFrame :=
  mkDF [u " a"; u "a"; u "b"]
       [list_to_map [(u " a", Num 1); (u "a", Num 2); (u "b", Num 3)]].

(** The name one iteration of the renaming loop appends. *)
Definition dedup_name (seen : gset (list N)) (col : list N) : list N :=
  if bool_decide (col ∉ seen) then col
  else dup_name col (next_dup (size seen) seen col 1).

(** The value the cleaning loop of [load_structure_data] leaves in a column
    (lines 429-433). *)
Definition structure_cell (parse_number : list N → option Z) (col : list N) (c : cell)
  : cell :=
  if bool_decide (col ∈ structure_text_cols)
  then str_strip (astype_str (fillna (Text []) c))
  else if bool_decide (col ∈ structure_numeric_cols)
  then fillna (Num 0) (to_numeric parse_number c)
  else c.

(** The value the cleaning loop of [load_id_data] leaves in a column (lines
    276-316). *)
Definition id_cell (parse_number : list N → option Z) (col : list N) (c : cell) : cell :=
  if bool_decide (col ∈ id_text_cols)
  then str_strip (astype_str (fillna (Text []) c))
  else if bool_decide (col = DocumentedVolume)
  then fillna (Num 0) (to_numeric parse_number c)
  else c.

(** A header that stays unmapped bears the canonical name another header is
    renamed to: the renaming then yields that label twice. *)
Definition structure_label_clash (lower_char : N → N) (df : DataFrame) : Prop :=
  ∃ h h', h ∈ clean_column_names (columns df)
          ∧ structure_column_mapping lower_char (clean_column_names (columns df)) !! h = None
          ∧ structure_column_mapping lower_char (clean_column_names (columns df)) !! h'
            = Some h.

(** A structure sheet with its five identifying columns, one volume column
    and a column the classifier does not know. *)
Definition ex_structure_raw : DataFrame :=
  mkDF [u "Проект"; u "Марка"; u "Конструкция"; u "Вид работ"; u "Ед. изм.";
        u "Проектный объем"; u "Примечание"]
       [list_to_map [(u "Проект", Text (u " P1 ")); (u "Марка", Text (u "KM"));
                     (u "Конструкция", Text (u "Wall")); (u "Вид работ", Text (u "Concrete"));
                     (u "Ед. изм.", Text (u "m3")); (u "Проектный объем", Text (u "40"));
                     (u "Примечание", NaN)];
        list_to_map [(u "Проект", Text (u "P1")); (u "Марка", Text (u "KM"));
                     (u "Конструкция", Text (u "Wall")); (u "Вид работ", Text (u "Concrete"));
                     (u "Ед. изм.", Text (u "m3")); (u "Проектный объем", Num 60);
                     (u "Примечание", Text (u "x"))]].

(** A structure sheet in which the second header, left unmapped, is the
    canonical name the first header is renamed to. *)
Definition ex_structure_clash : DataFrame :=
  mkDF [u "Проект работ"; u "Проект"; u "Марка"; u "Конструкция"; u "Вид работ"]
       [list_to_map [(u "Проект работ", Text (u "P1")); (u "Проект", Text (u "P2"));
                     (u "Марка", Text (u "KM")); (u "Конструкция", Text (u "Wall"));
                     (u "Вид работ", Text (u "Concrete"))]].

(** A documentation sheet with its four columns and three rows, one of them
    with a blank work type. *)
Definition ex_id_raw : DataFrame :=
  mkDF [u "Шифры комплектов РД"; u "Конструктивный элемент"; u "Вид работ";
        u "Объем по документу / Work scopes"; u "Примечание"]
       [list_to_map [(u "Шифры комплектов РД", Text (u " P1"));
                     (u "Конструктивный элемент", Text (u "Wall"));
                     (u "Вид работ", Text (u "Concrete"));
                     (u "Объем по документу / Work scopes", Text (u "25"));
                     (u "Примечание", NaN)];
        list_to_map [(u "Шифры комплектов РД", Text (u "P1"));
                     (u "Конструктивный элемент", Text (u "Wall"));
                     (u "Вид работ", Text (u "  "));
                     (u "Объем по документу / Work scopes", Num 7);
                     (u "Примечание", NaN)];
        list_to_map [(u "Шифры комплектов РД", Text (u "P1"));
                     (u "Конструктивный элемент", Text (u "Wall"));
                     (u "Вид работ", Text (u "Concrete"));
                     (u "Объем по документу / Work scopes", NaN);
                     (u "Примечание", NaN)]].

(** A sheet row under the header list [names], after the two replacements of
    the header list that precede it (lines 112/134 and the renaming). *)
Definition relabel (names : list (list N)) (sheet : DataFrame) (r : gmap (list N) cell)
  : gmap (list N) cell :=
  list_to_map
    (zip names
       ((λ c, get (list_to_map (zip (clean_column_names (columns sheet))
                                    ((λ c, get r c) <$> columns sheet))) c)
          <$> clean_column_names (columns sheet))).

(** The columns the documentation load keeps (line 262). *)
Definition id_available (lower_char : N → N) (sheet : DataFrame) : list (list N) :=
  available id_needed_cols (id_columns lower_char sheet).

(** The documentation table before its rows are filtered (line 341). *)
Definition id_cleaned (lower_char : N → N) (parse_number : list N → option Z)
    (sheet : DataFrame) : DataFrame :=
  foldl (id_clean_col parse_number)
        (select (id_available lower_char sheet)
                (set_columns (id_columns lower_char sheet) (clean_dataframe_columns sheet)))
        (id_available lower_char sheet).


(** Two pivot rows that differ in the mark only. *)
Definition ex_pivot_two_marks : DataFrame :=
  mkDF ex_structure_cols
       [structure_row (u "AB-12") (u "KM") (u "Wall-1") (u "Concreting") (u "m3") 100;
        structure_row (u "AB-12") (u "KZh") (u "Wall-1") (u "Concreting") (u "m3") 100].

(** A structure row and a documentation row whose key fields differ by the
    side of the separator on which a '|' stands. *)
Definition ex_row_bar_right : gmap (list N) cell :=
  structure_row (u "A") (u "KZh") (u "|B") (u "C") (u "m3") 100.

Definition ex_id_bar_left : DataFrame :=
  mkDF [PackageCode; StructuralElement; WorkType; DocumentedVolume]
       [id_row (u "A|") (u "B") (u "C") 50].

(** The name a column of the pivot table bears in the report (lines
    632-639). *)
Definition display_name (c : list N) : list N := default c (report_names !! c).

(** A matched pivot table with a column the report drops. *)
Definition ex_pivot_extra : DataFrame :=
  mkDF [Project; Unit_; u "Примечание"; ConfirmedByDocs]
       [list_to_map [(Project, Text (u "AB-12")); (Unit_, Text (u "m3"));
                     (u "Примечание", Text (u "x")); (ConfirmedByDocs, Num 80)]].

(** * Properties *)

(** ** Strings *)

Lemma lstrip_idemp s : lstrip (lstrip s) = lstrip s.
Proof.
  induction s as [|c s IH]; simpl; [done|].
  destruct (isspace c) eqn:E; [done|]. simpl. by rewrite E.
Qed.

Lemma lstrip_app l m :
  lstrip (l ++ m) = match lstrip l with [] => lstrip m | _ => lstrip l ++ m end.
Proof.
  induction l as [|c l IH]; simpl; [done|].
  destruct (isspace c); [done|done].
Qed.

Lemma rstrip_cons c s :
  rstrip (c :: s) =
  match rstrip s with
  | [] => if isspace c then [] else [c]
  | _ => c :: rstrip s
  end.
Proof.
  unfold rstrip. simpl. rewrite lstrip_app.
  destruct (lstrip (rev s)) as [|d t] eqn:E; simpl.
  - by destruct (isspace c).
  - rewrite rev_app_distr. simpl. 
    destruct (rev t ++ [d]) eqn:E'; [by destruct (rev t)|done].
Qed.

Lemma rstrip_idemp s : rstrip (rstrip s) = rstrip s.
Proof. unfold rstrip. by rewrite rev_involutive, lstrip_idemp. Qed.

Lemma lstrip_rstrip_fixed s : lstrip s = s → lstrip (rstrip s) = rstrip s.
Proof.
  destruct s as [|c s]; [done|]. simpl.
  destruct (isspace c) eqn:E.
  - intros H. exfalso.
    assert (length (lstrip s) ≤ length s)%nat.
    { clear. induction s as [|d s IH]; simpl; [done|]. destruct (isspace d); simpl; lia. }
    rewrite H in H0. simpl in H0. lia.
  - intros _. rewrite rstrip_cons, E.
    destruct (rstrip s); simpl; by rewrite E.
Qed.

Lemma strip_idemp s : strip (strip s) = strip s.
Proof.
  unfold strip. rewrite (lstrip_rstrip_fixed (lstrip s)) by apply lstrip_idemp.
  apply rstrip_idemp.
Qed.

(** ** Rows and columns *)

Lemma get_insert_eq (r : gmap (list N) cell) c v : get (<[c := v]> r) c = v.
Proof. unfold get. by rewrite lookup_insert_eq. Qed.

Lemma get_insert_ne (r : gmap (list N) cell) c c' v :
  c ≠ c' → get (<[c := v]> r) c' = get r c'.
Proof. intros. unfold get. by rewrite lookup_insert_ne. Qed.

Lemma has_col_elem df c : has_col df c = true ↔ c ∈ columns df.
Proof. unfold has_col. by rewrite bool_decide_eq_true. Qed.

Lemma missing_nil (has : list N → bool) (cols : list (list N)) :
  List.filter (λ col, negb (has col)) cols = [] ↔ ∀ c, c ∈ cols → has c = true.
Proof.
  induction cols as [|c cols IH]; simpl.
  - split; [intros _ c H; by apply elem_of_nil in H|done].
  - destruct (has c) eqn:E; simpl.
    + rewrite IH. split.
      * intros H c' [->|H']%elem_of_cons; auto.
      * intros H c' H'. apply H. by right.
    + split; [done|]. intros H. specialize (H c). rewrite E in H.
      discriminate H. by left.
Qed.

Lemma forallb_elem {A} (p : A → bool) (l : list A) :
  forallb p l = true ↔ ∀ x, x ∈ l → p x = true.
Proof.
  rewrite forallb_forall. split; intros H x Hx; apply H; by apply list_elem_of_In.
Qed.

Lemma filter_fmap {A B} (p : B → bool) (f : A → B) (l : list A) :
  List.filter p (f <$> l) = f <$> List.filter (λ x, p (f x)) l.
Proof.
  induction l as [|x l IH]; [done|].
  rewrite fmap_cons. cbn [List.filter]. rewrite IH.
  by destruct (p (f x)).
Qed.

Lemma filter_filter {A} (p q : A → bool) (l : list A) :
  List.filter p (List.filter q l) = List.filter (λ x, q x && p x) l.
Proof.
  induction l as [|x l IH]; simpl; [done|].
  destruct (q x); simpl; [destruct (p x)|]; simpl; by rewrite IH.
Qed.

Lemma filter_ext_elem {A} (p q : A → bool) (l : list A) :
  (∀ x, x ∈ l → p x = q x) → List.filter p l = List.filter q l.
Proof.
  intros H. apply List.filter_ext_in. intros x Hx. apply H. by apply list_elem_of_In.
Qed.

(** The cell written by [.fillna('').astype(str).str.strip()]. *)
Lemma clean_cell_normalized c :
  str_strip (astype_str (fillna (Text []) c)) = Text (normalized c).
Proof. unfold normalized. by destruct c. Qed.

Lemma normalized_stripped c : strip (normalized c) = normalized c.
Proof. unfold normalized. destruct c; simpl; apply strip_idemp. Qed.

Lemma foldl_ext_all {A B} (f g : A → B → A) (l : list B) (a : A) :
  (∀ a b, f a b = g a b) → foldl f a l = foldl g a l.
Proof.
  intros H. revert a. induction l as [|b l IH]; intros a; simpl; [done|].
  by rewrite H, IH.
Qed.

Lemma map_cols_spec g cols df :
  let df' := foldl (λ df col, if has_col df col
                              then assign col (λ r, g (get r col)) df else df) df cols in
  columns df' = columns df ∧ rows df' = update_row g (has_col df) cols <$> rows df.
Proof.
  unfold update_row. revert df. induction cols as [|c cols IH]; intros df; simpl.
  - split; [done|]. by rewrite list_fmap_id.
  - destruct (has_col df c) eqn:E.
    + destruct (IH (assign c (λ r, g (get r c)) df)) as [IH1 IH2].
      rewrite IH1, IH2. simpl. rewrite E. split; [done|].
      rewrite <- list_fmap_compose. apply list_fmap_ext. intros i r _. simpl.
      apply foldl_ext_all. intros r' c'.
      unfold has_col. simpl. by rewrite E.
    + apply IH.
Qed.

Lemma get_update_row g has cols r c :
  NoDup cols →
  get (update_row g has cols r) c =
  if bool_decide (c ∈ cols) && has c then g (get r c) else get r c.
Proof.
  unfold update_row. intros Hnd. revert r.
  induction Hnd as [|c0 cols Hc0 Hnd IH]; intros r; simpl; [done|].
  rewrite IH. destruct (decide (c = c0)) as [->|Hne].
  - rewrite (bool_decide_eq_false_2 (c0 ∈ cols)) by done.
    rewrite (bool_decide_eq_true_2 (c0 ∈ c0 :: cols)) by constructor. simpl.
    destruct (has c0); [by rewrite get_insert_eq|done].
  - assert (get (if has c0 then <[c0:=g (get r c0)]> r else r) c = get r c) as ->.
    { destruct (has c0); [by rewrite get_insert_ne|done]. }
    assert (bool_decide (c ∈ c0 :: cols) = bool_decide (c ∈ cols)) as ->; [|done].
    apply bool_decide_ext. rewrite elem_of_cons. split; [intros [?|?]; done|auto].
Qed.

Lemma clean_keys_spec cols df :
  columns (clean_keys cols df) = columns df ∧
  rows (clean_keys cols df) = clean_row (has_col df) cols <$> rows df.
Proof. exact (map_cols_spec (λ c, str_strip (astype_str (fillna (Text []) c))) cols df). Qed.

Lemma get_clean_row has cols r c :
  NoDup cols →
  get (clean_row has cols r) c =
  if bool_decide (c ∈ cols) && has c then Text (normalized (get r c)) else get r c.
Proof.
  intros Hnd. unfold clean_row. rewrite get_update_row by done.
  by rewrite clean_cell_normalized.
Qed.

Lemma zip_fmap_same {A B C} (f : A → B) (g : A → C) (l : list A) :
  zip (f <$> l) (g <$> l) = (λ x, (f x, g x)) <$> l.
Proof. induction l as [|x l IH]; [done|]. rewrite !fmap_cons. simpl. by rewrite IH. Qed.

Lemma zip_with_fmap_same {A B C} (f : A → B → C) (g : A → B) (l : list A) :
  zip_with f l (g <$> l) = (λ x, f x (g x)) <$> l.
Proof. induction l as [|x l IH]; [done|]. rewrite !fmap_cons. simpl. by rewrite IH. Qed.

(** ** Grouping *)

Lemma group_keys_NoDup by_ df : NoDup (group_keys by_ df).
Proof.
  unfold group_keys. rewrite merge_sort_Permutation. apply NoDup_remove_dups.
Qed.

Lemma elem_of_filter {A} (p : A → bool) (l : list A) x :
  x ∈ List.filter p l ↔ x ∈ l ∧ p x = true.
Proof. rewrite !list_elem_of_In. apply filter_In. Qed.

Lemma elem_of_group_keys by_ df k :
  k ∈ group_keys by_ df ↔ (NaN ∉ k) ∧ (∃ r, r ∈ rows df ∧ row_key by_ r = k).
Proof.
  unfold group_keys. rewrite merge_sort_Permutation, elem_of_remove_dups, elem_of_filter.
  rewrite bool_decide_eq_true, list_elem_of_fmap. naive_solver.
Qed.

Lemma group_rows_nil by_ df k :
  NaN ∉ k → k ∉ group_keys by_ df → group_rows by_ k df = [].
Proof.
  intros Hk Hnot. unfold group_rows.
  destruct (List.filter _ _) as [|r l] eqn:E; [done|].
  assert (r ∈ List.filter (λ r, bool_decide (row_key by_ r = k)) (rows df)) as Hr.
  { rewrite E. left. }
  apply elem_of_filter in Hr as [Hr1 Hr2%bool_decide_eq_true].
  exfalso. apply Hnot. apply elem_of_group_keys. eauto.
Qed.

(** ** The matcher *)

Ltac names_differ := intros ?; discriminate.

Lemma make_key_clean has cols a b c r :
  cols = [a; b; c] → NoDup cols → has a = true → has b = true → has c = true →
  make_key a b c (clean_row has cols r)
  = Text (joined (normalized (get r a), normalized (get r b), normalized (get r c))).
Proof.
  intros -> Hnd Ha Hb Hc. unfold make_key.
  rewrite !get_clean_row by done.
  rewrite Ha, Hb, Hc.
  rewrite !bool_decide_eq_true_2 by (rewrite !elem_of_cons; auto).
  simpl. rewrite !normalized_stripped. unfold joined. simpl.
  by rewrite <- !app_assoc.
Qed.

Lemma NoDup_structure_key_cols : NoDup structure_key_cols.
Proof. unfold structure_key_cols. repeat constructor; rewrite ?elem_of_cons, ?elem_of_nil; intuition discriminate. Qed.

Lemma NoDup_id_key_cols : NoDup id_key_cols.
Proof. unfold id_key_cols. repeat constructor; rewrite ?elem_of_cons, ?elem_of_nil; intuition discriminate. Qed.

Lemma single_key_shape df (c : list N) k :
  k ∈ group_keys [c] df → ∃ k0, k = [k0] ∧ k0 ≠ NaN.
Proof.
  intros [Hn (r & _ & <-)]%elem_of_group_keys. exists (get r c). split; [done|].
  intros E. apply Hn. unfold row_key. simpl. rewrite E. constructor.
Qed.

Lemma id_volume_dict_lookup df kc :
  kc ≠ NaN →
  fillna (Num 0)
    (map_dict
       (list_to_map
          (zip (column composite_key (groupby_sum [composite_key] [DocumentedVolume] df))
               (column DocumentedVolume (groupby_sum [composite_key] [DocumentedVolume] df))))
       kc)
  = Num (group_total DocumentedVolume (group_rows [composite_key] [kc] df)).
Proof.
  intros Hkc. unfold column, groupby_sum. cbn [rows].
  rewrite <- !list_fmap_compose, zip_fmap_same.
  set (pairs := (λ k : list cell, (default NaN (head k),
          Num (group_total DocumentedVolume (group_rows [composite_key] k df)))) <$>
          group_keys [composite_key] df).
  match goal with |- context [list_to_map ?l] => assert (l = pairs) as -> end.
  { apply list_fmap_ext. intros i k Hk%list_elem_of_lookup_2.
    apply single_key_shape in Hk as (k0 & -> & _). simpl.
    rewrite get_insert_eq, get_insert_ne, get_insert_eq by names_differ. done. }
  assert (pairs.*1 = (λ k, default NaN (head k)) <$> group_keys [composite_key] df) as Hfst.
  { unfold pairs. rewrite <- list_fmap_compose. done. }
  destruct (decide ([kc] ∈ group_keys [composite_key] df)) as [Hin|Hnot].
  - assert (NoDup pairs.*1) as Hnd.
    { rewrite Hfst. apply NoDup_fmap_2_strong; [|apply group_keys_NoDup].
      intros x y (x0 & -> & _)%single_key_shape (y0 & -> & _)%single_key_shape. simpl.
      by intros ->. }
    unfold map_dict.
    rewrite (elem_of_list_to_map_1 pairs kc
               (Num (group_total DocumentedVolume (group_rows [composite_key] [kc] df)))); [done|done|].
    unfold pairs. apply list_elem_of_fmap. exists [kc]. done.
  - unfold map_dict. rewrite (not_elem_of_list_to_map_1 pairs kc).
    + simpl. rewrite group_rows_nil; [done| |done].
      rewrite elem_of_cons, elem_of_nil. intros [E|[]]. by apply Hkc.
    + rewrite Hfst. intros (k & E & Hk)%list_elem_of_fmap.
      apply Hnot. destruct (single_key_shape _ _ _ Hk) as (k0 & -> & _).
      simpl in E. by subst.
Qed.

Lemma cell_ne_text a b : cell_ne (Text a) (Text b) = negb (bool_decide (a = b)).
Proof. unfold cell_ne. repeat case_bool_decide; simpl; congruence. Qed.

Lemma has_id_key_cols id_df :
  (∀ c, c ∈ required_id_cols → c ∈ columns id_df) →
  has_col id_df PackageCode = true ∧ has_col id_df StructuralElement = true
  ∧ has_col id_df WorkType = true.
Proof.
  intros H. rewrite !has_col_elem.
  repeat split; apply H; unfold required_id_cols; rewrite !elem_of_cons; auto.
Qed.

Lemma id_group_total id_df k :
  (∀ c, c ∈ required_id_cols → c ∈ columns id_df) →
  group_total DocumentedVolume
    (group_rows [composite_key] [Text k]
       (assign composite_key (make_key PackageCode StructuralElement WorkType)
          (filter_rows (λ r, cell_ne (get r PackageCode) (Text [])
                             && cell_ne (get r StructuralElement) (Text [])
                             && cell_ne (get r WorkType) (Text []))
                       (clean_keys id_key_cols id_df))))
  = sum_Z ((λ d, cell_num (get d DocumentedVolume)) <$>
           List.filter (λ d, complete (id_key3 d) && bool_decide (joined (id_key3 d) = k))
                       (rows id_df)).
Proof.
  intros Hcols. destruct (has_id_key_cols _ Hcols) as (H1 & H2 & H3).
  unfold group_total, group_rows, assign, filter_rows. cbn [rows].
  destruct (clean_keys_spec id_key_cols id_df) as [_ ->].
  rewrite !filter_fmap, filter_filter, <- !list_fmap_compose.
  pose proof NoDup_id_key_cols as Hnd.
  f_equal.
  rewrite (filter_ext_elem _
    (λ d, complete (id_key3 d) && bool_decide (joined (id_key3 d) = k))).
  - apply list_fmap_ext; intros i d _; simpl.
    rewrite get_insert_ne by names_differ.
    rewrite get_clean_row by done.
    rewrite bool_decide_eq_false_2; [done|].
    unfold id_key_cols. rewrite !elem_of_cons, elem_of_nil. intuition discriminate.
  - intros d _. simpl. unfold row_key. simpl. rewrite get_insert_eq.
    rewrite (make_key_clean _ id_key_cols) by done.
    rewrite !get_clean_row, H1, H2, H3 by done.
    rewrite !bool_decide_eq_true_2 by (unfold id_key_cols; rewrite !elem_of_cons; auto).
    simpl. rewrite !cell_ne_text. unfold complete, id_key3. simpl.
    apply (f_equal2 andb).
    + repeat (apply (f_equal2 andb) || apply (f_equal negb)); by apply bool_decide_ext.
    + apply bool_decide_ext. split; intros H; congruence.
Qed.

Lemma rows_assign c f df : rows (assign c f df) = (λ r, <[c := f r]> r) <$> rows df.
Proof. done. Qed.

Lemma optimize_matching_rows pivot_df id_df :
  (∀ c, c ∈ required_id_cols → c ∈ columns id_df) →
  (∀ c, c ∈ structure_key_cols → c ∈ columns pivot_df) →
  rows (optimize_matching pivot_df id_df)
  = (λ r, <[ConfirmedByDocs := Num (matched_volume id_df r)]> r) <$> rows pivot_df.
Proof.
  intros Hid Hst. unfold optimize_matching.
  rewrite (bool_decide_eq_true_2 (List.filter _ required_id_cols = [])).
  2:{ apply missing_nil. intros c Hc. apply has_col_elem. auto. }
  cbn [negb].
  assert (∀ c, c ∈ structure_key_cols → has_col pivot_df c = true) as Hst'.
  { intros c Hc. apply has_col_elem. auto. }
  assert (forallb (has_col (clean_keys structure_key_cols pivot_df)) structure_key_cols = true)
    as ->.
  { apply forallb_elem. intros c Hc. apply has_col_elem.
    destruct (clean_keys_spec structure_key_cols pivot_df) as [-> _]. auto. }
  cbn [negb]. unfold assign_values. cbn [rows]. unfold column at 1.
  rewrite !rows_assign.
  destruct (clean_keys_spec structure_key_cols pivot_df) as [_ ->].
  rewrite <- !list_fmap_compose, zip_with_fmap_same.
  apply list_fmap_ext. intros i r _. unfold compose. cbn beta.
  f_equal. rewrite !get_insert_eq.
  rewrite (make_key_clean _ structure_key_cols), id_volume_dict_lookup, id_group_total;
    try done; try apply NoDup_structure_key_cols;
    apply Hst'; unfold structure_key_cols; rewrite !elem_of_cons; auto.
Qed.

Lemma can_match_true pivot_df id_df :
  can_match pivot_df id_df = true ↔
  (∀ c, c ∈ required_id_cols → c ∈ columns id_df)
  ∧ (∀ c, c ∈ structure_key_cols → c ∈ columns pivot_df).
Proof.
  unfold can_match. rewrite andb_true_iff, !forallb_elem.
  split; intros [H1 H2]; split; intros c Hc; apply has_col_elem; auto.
Qed.

Lemma optimize_matching_spec pivot_df id_df :
  optimize_matching pivot_df id_df =
  if can_match pivot_df id_df then
    {| columns := if has_col pivot_df ConfirmedByDocs then columns pivot_df
                  else columns pivot_df ++ [ConfirmedByDocs];
       rows := (λ r, <[ConfirmedByDocs := Num (matched_volume id_df r)]> r)
               <$> rows pivot_df |}
  else pivot_df.
Proof.
  destruct (can_match pivot_df id_df) eqn:E.
  - apply can_match_true in E as [H1 H2].
    pose proof (optimize_matching_rows _ _ H1 H2) as Hrows.
    destruct (optimize_matching pivot_df id_df) as [cs rs] eqn:Eo.
    simpl in Hrows. subst rs. f_equal.
    assert (cs = columns (optimize_matching pivot_df id_df)) as -> by (by rewrite Eo).
    clear Eo. unfold optimize_matching.
    rewrite (bool_decide_eq_true_2 (List.filter _ required_id_cols = [])).
    2:{ apply missing_nil. intros c Hc. apply has_col_elem. auto. }
    cbn [negb].
    assert (forallb (has_col (clean_keys structure_key_cols pivot_df)) structure_key_cols = true)
      as ->; [|done].
    apply forallb_elem. intros c Hc. apply has_col_elem.
    destruct (clean_keys_spec structure_key_cols pivot_df) as [-> _]. auto.
  - unfold can_match in E. unfold optimize_matching.
    destruct (forallb (has_col id_df) required_id_cols) eqn:E1.
    + simpl in E.
      rewrite (bool_decide_eq_true_2 (List.filter _ required_id_cols = [])).
      2:{ apply missing_nil. by apply forallb_elem. }
      cbn [negb].
      assert (forallb (has_col (clean_keys structure_key_cols pivot_df)) structure_key_cols = false)
        as ->; [|done].
      rewrite <- E. clear.
      unfold has_col. by destruct (clean_keys_spec structure_key_cols pivot_df) as [-> _].
    + rewrite (bool_decide_eq_false_2 (List.filter _ required_id_cols = [])); [done|].
      rewrite missing_nil, <- forallb_elem. congruence.
Qed.

(** ** The separator *)

Lemma split_at_bar (a a' x x' : list N) :
  124 ∉ a → 124 ∉ a' → a ++ 124 :: x = a' ++ 124 :: x' → a = a' ∧ x = x'.
Proof.
  revert a'. induction a as [|c a IH]; intros [|c' a'] Ha Ha' E; simpl in E.
  - by injection E.
  - injection E as <- _. exfalso. apply Ha'. constructor.
  - injection E as -> _. exfalso. apply Ha. constructor.
  - injection E as -> E. destruct (IH a') as [-> ->]; [| |done|done].
    + intros H. apply Ha. by constructor.
    + intros H. apply Ha'. by constructor.
Qed.

Lemma joined_inj k1 k2 :
  bar_free_key k1 → bar_free_key k2 → joined k1 = joined k2 → k1 = k2.
Proof.
  destruct k1 as [[a b] c], k2 as [[a' b'] c'].
  unfold bar_free_key, bar_free, joined, SEP. simpl.
  intros (Ha & Hb & _) (Ha' & Hb' & _) E.
  apply split_at_bar in E as [-> E]; [|done|done].
  injection E as E.
  apply split_at_bar in E as [-> E]; [|done|done].
  by injection E as ->.
Qed.

(** ** The aggregator *)

Lemma foldl_ext_elem {A B} (f g : A → B → A) (l : list B) (a : A) :
  (∀ a b, b ∈ l → f a b = g a b) → foldl f a l = foldl g a l.
Proof.
  revert a. induction l as [|b l IH]; intros a H; simpl; [done|].
  rewrite H by constructor. apply IH. intros a' b' Hb'. apply H. by constructor.
Qed.

Lemma has_col_assign_new c f df c' :
  has_col df c = false →
  has_col (assign c f df) c' = has_col df c' || bool_decide (c' = c).
Proof.
  intros E. unfold has_col at 1. unfold assign. cbn [columns]. rewrite E.
  unfold has_col. apply eq_true_iff_eq.
  rewrite orb_true_iff, !bool_decide_eq_true, elem_of_app, list_elem_of_singleton. done.
Qed.

Lemma add_cols_spec v cols df :
  NoDup cols →
  let df' := foldl (λ df col, if has_col df col then df else assign col (λ _, v) df)
                   df cols in
  (∀ c, has_col df' c = has_col df c || bool_decide (c ∈ cols))
  ∧ rows df' = add_row v (has_col df) cols <$> rows df.
Proof.
  unfold add_row. intros Hnd. revert df.
  induction Hnd as [|c0 cols Hc0 Hnd IH]; intros df; simpl.
  - split; [intros c; by rewrite orb_false_r|by rewrite list_fmap_id].
  - destruct (has_col df c0) eqn:E.
    + destruct (IH df) as [IH1 IH2]. split; [|done].
      intros c. rewrite IH1. destruct (decide (c = c0)) as [->|Hne].
      * by rewrite E.
      * f_equal. apply bool_decide_ext. rewrite elem_of_cons. split; [auto|by intros [?|?]].
    + destruct (IH (assign c0 (λ _, v) df)) as [IH1 IH2]. split.
      * intros c. rewrite IH1, has_col_assign_new by done.
        rewrite <- orb_assoc. f_equal. apply eq_true_iff_eq.
        rewrite orb_true_iff, !bool_decide_eq_true, elem_of_cons. done.
      * rewrite IH2, rows_assign, <- list_fmap_compose.
        apply list_fmap_ext. intros i r _. simpl.
        apply foldl_ext_elem. intros r' c Hc.
        rewrite has_col_assign_new by done.
        rewrite (bool_decide_eq_false_2 (c = c0)); [by rewrite orb_false_r|].
        by intros ->.
Qed.

Lemma get_add_row v has cols r c :
  NoDup cols →
  get (add_row v has cols r) c =
  if bool_decide (c ∈ cols) && negb (has c) then v else get r c.
Proof.
  unfold add_row. intros Hnd. revert r.
  induction Hnd as [|c0 cols Hc0 Hnd IH]; intros r; simpl; [done|].
  rewrite IH. destruct (decide (c = c0)) as [->|Hne].
  - rewrite (bool_decide_eq_false_2 (c0 ∈ cols)) by done.
    rewrite (bool_decide_eq_true_2 (c0 ∈ c0 :: cols)) by constructor. simpl.
    destruct (has c0); [done|by rewrite get_insert_eq].
  - assert (get (if has c0 then r else <[c0:=v]> r) c = get r c) as ->.
    { destruct (has c0); [done|by rewrite get_insert_ne]. }
    assert (bool_decide (c ∈ c0 :: cols) = bool_decide (c ∈ cols)) as ->; [|done].
    apply bool_decide_ext. rewrite elem_of_cons. split; [intros [?|?]; done|auto].
Qed.

Ltac solve_NoDup :=
  repeat constructor; rewrite ?elem_of_cons, ?elem_of_nil; intuition discriminate.

Lemma NoDup_numeric_cols : NoDup numeric_cols.
Proof. unfold numeric_cols, structure_numeric_cols. solve_NoDup. Qed.

Lemma NoDup_groupby_cols : NoDup groupby_cols.
Proof. unfold groupby_cols, structure_text_cols. solve_NoDup. Qed.

Lemma groupby_not_numeric c : c ∈ groupby_cols → c ∉ numeric_cols.
Proof.
  unfold groupby_cols, numeric_cols, structure_text_cols, structure_numeric_cols.
  rewrite !elem_of_cons, !elem_of_nil. intuition (subst; discriminate).
Qed.

Lemma confirmed_not_grouped : ConfirmedByDocs ∉ groupby_cols ++ numeric_cols.
Proof.
  unfold groupby_cols, numeric_cols, structure_text_cols, structure_numeric_cols.
  rewrite elem_of_app, !elem_of_cons, !elem_of_nil. intuition discriminate.
Qed.

Lemma prepared_rows df :
  rows (clean_groupby_cols (add_numeric_cols df)) = prepared df <$> rows df.
Proof.
  unfold clean_groupby_cols.
  destruct (map_cols_spec group_cell groupby_cols (add_numeric_cols df)) as [_ H].
  unfold group_cell in *. cbn zeta in H. rewrite H.
  destruct (add_cols_spec (Num 0) numeric_cols df NoDup_numeric_cols) as [_ H'].
  cbn zeta in H'. unfold add_numeric_cols at 2. rewrite H'.
  by rewrite <- list_fmap_compose.
Qed.

Lemma has_col_add_numeric df c :
  has_col (add_numeric_cols df) c = has_col df c || bool_decide (c ∈ numeric_cols).
Proof. apply (add_cols_spec (Num 0) numeric_cols df NoDup_numeric_cols). Qed.

Lemma get_prepared_group df r c :
  c ∈ groupby_cols → has_col df c = true →
  get (prepared df r) c = group_cell (get r c).
Proof.
  intros Hc Hhas. unfold prepared.
  rewrite get_update_row by apply NoDup_groupby_cols.
  rewrite bool_decide_eq_true_2, has_col_add_numeric, Hhas by done. simpl.
  rewrite get_add_row by apply NoDup_numeric_cols.
  rewrite bool_decide_eq_false_2; [done|by apply groupby_not_numeric].
Qed.


Lemma row_key_prepared df r :
  (∀ c, c ∈ required_cols → c ∈ columns df) →
  row_key groupby_cols (prepared df r) = group_key5 r.
Proof.
  intros H. unfold row_key, group_key5. apply list_fmap_ext.
  intros i c Hc%list_elem_of_lookup_2. apply get_prepared_group; [done|].
  apply has_col_elem. by apply H.
Qed.

Lemma group_key5_no_nan r : NaN ∉ group_key5 r.
Proof.
  unfold group_key5. intros (c & E & _)%list_elem_of_fmap.
  unfold group_cell in E. by destruct (get r c).
Qed.

Lemma row_key_zip (by_ : list (list N)) (k : list cell)
    (rest : list (list N * cell)) :
  NoDup by_ → length k = length by_ →
  row_key by_ (list_to_map (zip by_ k ++ rest)) = k.
Proof.
  intros Hnd. revert k. induction Hnd as [|c by_ Hc Hnd IH]; intros [|x k] Hlen;
    try done.
  simpl in Hlen. unfold row_key. rewrite fmap_cons. simpl.
  rewrite get_insert_eq. f_equal.
  transitivity (row_key by_ (list_to_map (zip by_ k ++ rest))); [|apply IH; lia].
  apply list_fmap_ext.
  intros i c' Hc'%list_elem_of_lookup_2. apply get_insert_ne. by intros ->.
Qed.


Lemma groupby_no_confirmed k (rest : list (list N * cell)) c :
  c ≠ ConfirmedByDocs →
  get (<[ConfirmedByDocs := Num 0]> (list_to_map (zip groupby_cols k ++ rest))) c
  = get (list_to_map (zip groupby_cols k ++ rest)) c.
Proof. intros H. by apply get_insert_ne. Qed.

Lemma create_pivot_table_some df :
  (∀ c, c ∈ required_cols → c ∈ columns df) →
  create_pivot_table df =
  Some {| columns := pivot_columns;
          rows := pivot_row df <$>
                  group_keys groupby_cols (clean_groupby_cols (add_numeric_cols df)) |}.
Proof.
  intros H. unfold create_pivot_table.
  rewrite (bool_decide_eq_true_2 (List.filter _ required_cols = [])).
  2:{ apply missing_nil. intros c Hc. apply has_col_elem. auto. }
  cbn [negb]. f_equal. unfold assign, groupby_sum. cbn [columns rows].
  by rewrite <- list_fmap_compose.
Qed.

Lemma create_pivot_table_none df :
  create_pivot_table df = None ↔ ∃ c, c ∈ required_cols ∧ c ∉ columns df.
Proof.
  split.
  - intros E. destruct (decide (Forall (λ c, c ∈ columns df) required_cols)) as [H|H].
    + rewrite Forall_forall in H. by rewrite create_pivot_table_some in E.
    + apply not_Forall_Exists in H; [|apply _]. apply Exists_exists in H. done.
  - intros (c & Hc & Hn). unfold create_pivot_table.
    rewrite (bool_decide_eq_false_2 (List.filter _ required_cols = [])); [done|].
    rewrite missing_nil. intros H. apply Hn. apply has_col_elem. auto.
Qed.

Lemma pivot_keys df k :
  (∀ c, c ∈ required_cols → c ∈ columns df) →
  k ∈ group_keys groupby_cols (clean_groupby_cols (add_numeric_cols df))
  ↔ k ∈ group_key5 <$> rows df.
Proof.
  intros H. rewrite elem_of_group_keys, prepared_rows, list_elem_of_fmap. split.
  - intros (_ & r' & (r & -> & Hr)%list_elem_of_fmap & <-).
    exists r. by rewrite row_key_prepared.
  - intros (r & -> & Hr). split; [apply group_key5_no_nan|].
    exists (prepared df r). split; [apply list_elem_of_fmap; eauto|by apply row_key_prepared].
Qed.

Lemma pivot_row_key df k :
  k ∈ group_key5 <$> rows df → row_key groupby_cols (pivot_row df k) = k.
Proof.
  intros (r & -> & _)%list_elem_of_fmap. unfold pivot_row.
  transitivity (row_key groupby_cols
    (list_to_map (zip groupby_cols (group_key5 r) ++
      ((λ c, (c, Num (group_total c (group_rows groupby_cols (group_key5 r)
              (clean_groupby_cols (add_numeric_cols df)))))) <$> numeric_cols)))).
  - apply list_fmap_ext. intros i c Hc%list_elem_of_lookup_2.
    apply get_insert_ne. intros <-. apply confirmed_not_grouped, elem_of_app. auto.
  - apply row_key_zip; [apply NoDup_groupby_cols|].
    unfold group_key5. by rewrite length_fmap.
Qed.



Lemma lookup_fmap_rows {A B} (f : A → B) (l : list A) i x :
  l !! i = Some x → (f <$> l) !! i = Some (f x).
Proof. intros H. by rewrite list_lookup_fmap, H. Qed.



Lemma matching_rows_triples id_df r :
  bar_free_key (structure_key3 r) →
  (∀ d, d ∈ rows id_df → bar_free_key (id_key3 d)) →
  matching_rows id_df r =
  List.filter (λ d, complete (id_key3 d) && bool_decide (id_key3 d = structure_key3 r))
              (rows id_df).
Proof.
  intros Hr Hd. unfold matching_rows. apply filter_ext_elem. intros d Hin.
  f_equal. apply bool_decide_ext. split; [|by intros ->].
  apply joined_inj; auto.
Qed.


Lemma matched_row pivot_df id_df i r :
  (∀ c, c ∈ required_id_cols → c ∈ columns id_df) →
  (∀ c, c ∈ structure_key_cols → c ∈ columns pivot_df) →
  rows pivot_df !! i = Some r →
  ∃ r', rows (optimize_matching pivot_df id_df) !! i = Some r'
        ∧ get r' ConfirmedByDocs = Num (matched_volume id_df r).
Proof.
  intros Hid Hst Hr. rewrite optimize_matching_rows by done.
  eexists. split; [by apply lookup_fmap_rows|]. by rewrite get_insert_eq.
Qed.


(** C8 (left completeness).  The table the matcher returns has as many rows
    as the aggregated structure table it was given, in the same order, and
    each row differs from its input row in ConfirmedByDocs at most: no row
    is lost or duplicated, however many documentation rows match. *)
Theorem join_left_complete pivot_df id_df :
  length (rows (optimize_matching pivot_df id_df)) = length (rows pivot_df)
  ∧ ∀ i r, rows pivot_df !! i = Some r →
      ∃ r', rows (optimize_matching pivot_df id_df) !! i = Some r'
            ∧ ∀ c, c ≠ ConfirmedByDocs → r' !! c = r !! c.
Proof.
  rewrite optimize_matching_spec. destruct (can_match pivot_df id_df); cbn [rows].
  - split; [by rewrite length_fmap|]. intros i r Hr.
    eexists. split; [by apply lookup_fmap_rows|].
    intros c Hc. by rewrite lookup_insert_ne.
  - split; [done|]. eauto.
Qed.

Lemma can_match_false pivot_df id_df :
  (∃ c, c ∈ required_id_cols ∧ c ∉ columns id_df)
  ∨ (∃ c, c ∈ structure_key_cols ∧ c ∉ columns pivot_df) →
  can_match pivot_df id_df = false.
Proof.
  intros H. destruct (can_match pivot_df id_df) eqn:E; [|done].
  apply can_match_true in E as [H1 H2].
  destruct H as [(c & Hc & Hn)|(c & Hc & Hn)]; exfalso; auto.
Qed.

Section Pipeline.
Variable lower_char : N → N.
Variable parse_number : list N → option Z.

(** C6 (missing mandatory fields).  When the documentation table lacks one
    of its four columns, or the structure table one of its three key
    columns, the matcher returns the structure table it was given, unchanged,
    and the run goes on to the report instead of ending without one. *)
Theorem missing_fields_no_match pivot_df id_df :
  (∃ c, c ∈ required_id_cols ∧ c ∉ columns id_df)
  ∨ (∃ c, c ∈ structure_key_cols ∧ c ∉ columns pivot_df) →
  optimize_matching pivot_df id_df = pivot_df
  ∧ ∀ structure_sheet id_sheet structure_df,
      load_structure_data lower_char parse_number structure_sheet = Some structure_df →
      load_id_data lower_char parse_number id_sheet = Some id_df →
      create_pivot_table structure_df = Some pivot_df →
      process_files lower_char parse_number structure_sheet id_sheet
      = Some (create_final_report pivot_df).
Proof.
  intros H%can_match_false.
  assert (optimize_matching pivot_df id_df = pivot_df) as Hm.
  { by rewrite optimize_matching_spec, H. }
  split; [done|]. intros s i sd Hs Hi Hp.
  unfold process_files. rewrite Hs. simpl. rewrite Hi. simpl. rewrite Hp. simpl.
  by rewrite Hm.
Qed.
End Pipeline.

(** C3, amended.  The only normalization of a key field before the join is
    the trimming of leading and trailing whitespace: inner whitespace and
    case are kept.  When no key field contains the character of the
    separator, a structure row receives the volume of exactly the surviving
    documentation rows whose three trimmed key fields equal its own. *)
Theorem key_normalization_trims_only pivot_df id_df i r :
  (∀ c, c ∈ required_id_cols → c ∈ columns id_df) →
  (∀ c, c ∈ structure_key_cols → c ∈ columns pivot_df) →
  rows pivot_df !! i = Some r →
  bar_free_key (structure_key3 r) →
  (∀ d, d ∈ rows id_df → bar_free_key (id_key3 d)) →
  (∀ s, normalized (Text s) = strip s)
  ∧ ∃ r', rows (optimize_matching pivot_df id_df) !! i = Some r'
          ∧ get r' ConfirmedByDocs =
            Num (sum_Z ((λ d, cell_num (get d DocumentedVolume)) <$>
                        List.filter (λ d, complete (id_key3 d)
                                          && bool_decide (id_key3 d = structure_key3 r))
                                    (rows id_df))).
Proof.
  intros Hid Hst Hr Hbr Hbd. split; [done|].
  destruct (matched_row _ _ _ _ Hid Hst Hr) as (r' & H1 & H2).
  exists r'. split; [done|]. rewrite H2. unfold matched_volume.
  by rewrite matching_rows_triples.
Qed.


(** ** The aggregator: claims *)

Lemma create_pivot_table_inv structure_df pivot_df :
  create_pivot_table structure_df = Some pivot_df →
  (∀ c, c ∈ required_cols → c ∈ columns structure_df)
  ∧ pivot_df = {| columns := pivot_columns;
                  rows := pivot_row structure_df <$>
                    group_keys groupby_cols
                      (clean_groupby_cols (add_numeric_cols structure_df)) |}.
Proof.
  intros E.
  assert (∀ c, c ∈ required_cols → c ∈ columns structure_df) as H.
  { intros c Hc. destruct (decide (c ∈ columns structure_df)) as [|Hn]; [done|].
    assert (create_pivot_table structure_df = None) as E'.
    { apply create_pivot_table_none. eauto. }
    congruence. }
  split; [done|]. rewrite create_pivot_table_some in E by done. congruence.
Qed.

Lemma pivot_row_keys structure_df :
  (∀ c, c ∈ required_cols → c ∈ columns structure_df) →
  row_key groupby_cols <$>
    (pivot_row structure_df <$>
       group_keys groupby_cols (clean_groupby_cols (add_numeric_cols structure_df)))
  = group_keys groupby_cols (clean_groupby_cols (add_numeric_cols structure_df)).
Proof.
  intros H. rewrite <- list_fmap_compose.
  rewrite <- (list_fmap_id (group_keys _ _)) at 2.
  apply list_fmap_ext. intros i k Hk%list_elem_of_lookup_2. simpl.
  apply pivot_row_key. by apply pivot_keys.
Qed.




(** ** normalize_text *)

Lemma starts_space_sub_spaces s : starts_space (sub_spaces s) = starts_space s.
Proof.
  induction s as [|c s IH]; [done|]. simpl.
  destruct (isspace c) eqn:E; [|simpl; by rewrite E].
  destruct s as [|c' s]; [done|].
  destruct (isspace c') eqn:E'; [|done].
  rewrite IH. simpl. by rewrite E'.
Qed.

Lemma collapsed_sub_spaces s : collapsed (sub_spaces s) = true.
Proof.
  induction s as [|c s IH]; [done|]. simpl.
  destruct (isspace c) eqn:E.
  - destruct s as [|c' s]; [done|].
    destruct (isspace c') eqn:E'; [done|].
    cbn [collapsed]. rewrite IH, starts_space_sub_spaces. simpl. by rewrite E'.
  - cbn [collapsed]. by rewrite E, IH.
Qed.

Lemma sub_spaces_collapsed s : collapsed s = true → sub_spaces s = s.
Proof.
  induction s as [|c s IH]; [done|]. cbn [collapsed sub_spaces].
  destruct (isspace c) eqn:E.
  - intros [[->%N.eqb_eq Hs%negb_true_iff]%andb_true_iff Hc]%andb_true_iff.
    destruct s as [|c' s]; [done|]. simpl in Hs. rewrite Hs. by rewrite IH.
  - intros [_ Hc]%andb_true_iff. by rewrite IH.
Qed.

Lemma sub_spaces_idemp s : sub_spaces (sub_spaces s) = sub_spaces s.
Proof. apply sub_spaces_collapsed, collapsed_sub_spaces. Qed.

Lemma lstrip_fixed_head c s : lstrip (c :: s) = c :: s → isspace c = false.
Proof.
  simpl. destruct (isspace c); [|done]. intros H. exfalso.
  assert (length (lstrip s) ≤ length s)%nat.
  { clear. induction s as [|d s IH]; simpl; [done|]. destruct (isspace d); simpl; lia. }
  rewrite H in H0. simpl in H0. lia.
Qed.

Lemma rstrip_fixed_last s :
  rstrip s = s → s = [] ∨ ∃ t c, s = t ++ [c] ∧ isspace c = false.
Proof.
  unfold rstrip. intros H.
  assert (lstrip (rev s) = rev s) as H'.
  { rewrite <- H at 2. by rewrite rev_involutive. }
  destruct (rev s) as [|c l] eqn:E.
  - left. rewrite <- (rev_involutive s), E. done.
  - right. exists (rev l), c. split; [|by apply lstrip_fixed_head in H'].
    rewrite <- (rev_involutive s), E. done.
Qed.

Lemma rstrip_snoc t c : isspace c = false → rstrip (t ++ [c]) = t ++ [c].
Proof.
  intros E. unfold rstrip. rewrite rev_app_distr. simpl. rewrite E. simpl.
  by rewrite rev_involutive.
Qed.

Lemma sub_spaces_snoc t c :
  isspace c = false → ∃ z, sub_spaces (t ++ [c]) = z ++ [c].
Proof.
  intros E. induction t as [|d t [z IH]]; simpl.
  - rewrite E. by exists [].
  - destruct (isspace d).
    + destruct (t ++ [c]) as [|c' l] eqn:El; [by destruct t|].
      destruct (isspace c'); [eauto|]. rewrite IH. by exists (32 :: z).
    + rewrite IH. by exists (d :: z).
Qed.

Lemma strip_sub_spaces_fixed s :
  lstrip s = s → rstrip s = s → strip (sub_spaces s) = sub_spaces s.
Proof.
  intros Hl Hr. unfold strip.
  assert (lstrip (sub_spaces s) = sub_spaces s) as ->.
  { destruct s as [|c s]; [done|]. apply lstrip_fixed_head in Hl.
    simpl. rewrite Hl. simpl. by rewrite Hl. }
  destruct (rstrip_fixed_last s Hr) as [->|(t & c & -> & E)]; [done|].
  destruct (sub_spaces_snoc t c E) as [z ->]. by apply rstrip_snoc.
Qed.

Lemma lstrip_strip s : lstrip (strip s) = strip s.
Proof. unfold strip. apply lstrip_rstrip_fixed, lstrip_idemp. Qed.

Lemma rstrip_strip s : rstrip (strip s) = strip s.
Proof. unfold strip. apply rstrip_idemp. Qed.

Lemma Forall_lstrip (P : N → Prop) s : Forall P s → Forall P (lstrip s).
Proof.
  induction 1 as [|c s Hc Hs IH]; simpl; [done|].
  destruct (isspace c); [done|by constructor].
Qed.

Lemma Forall_strip (P : N → Prop) s : Forall P s → Forall P (strip s).
Proof.
  intros H. unfold strip, rstrip.
  apply List.Forall_rev, Forall_lstrip, List.Forall_rev. by apply Forall_lstrip.
Qed.

Lemma Forall_sub_spaces (P : N → Prop) s : P 32 → Forall P s → Forall P (sub_spaces s).
Proof.
  intros H32. induction 1 as [|c s Hc Hs IH]; simpl; [done|].
  destruct (isspace c); [|by constructor].
  destruct s as [|c' s]; [by repeat constructor|].
  destruct (isspace c'); [done|by constructor].
Qed.

Section Normalize.

Variable lower_char : N → N.
Variable isword : N → bool.

(** What the statement needs of [str.lower] and of [\w]: lowering twice is
    lowering once, a whitespace character is left alone, no other character
    becomes one, and a word character stays a word character. *)
Hypothesis lower_idemp : ∀ c, lower_char (lower_char c) = lower_char c.
Hypothesis lower_space : ∀ c, isspace c = true → lower_char c = c.
Hypothesis lower_not_space : ∀ c, isspace c = false → isspace (lower_char c) = false.
Hypothesis lower_word : ∀ c, isword c = true → isword (lower_char c) = true.

Lemma isspace_lower c : isspace (lower_char c) = isspace c.
Proof.
  destruct (isspace c) eqn:E; [by rewrite lower_space|by apply lower_not_space].
Qed.

Lemma lower_lstrip s :
  lower lower_char (lstrip s) = lstrip (lower lower_char s).
Proof.
  unfold lower. induction s as [|c s IH]; [done|].
  rewrite fmap_cons. simpl. rewrite isspace_lower.
  destruct (isspace c); [done|by rewrite fmap_cons].
Qed.

Lemma lower_rev s : lower lower_char (rev s) = rev (lower lower_char s).
Proof.
  unfold lower. induction s as [|c s IH]; [done|].
  rewrite fmap_cons. simpl. by rewrite fmap_app, IH.
Qed.

Lemma lower_strip s : lower lower_char (strip s) = strip (lower lower_char s).
Proof.
  unfold strip, rstrip. by rewrite lower_rev, lower_lstrip, lower_rev, lower_lstrip.
Qed.

Lemma lower_sub_spaces s :
  lower lower_char (sub_spaces s) = sub_spaces (lower lower_char s).
Proof.
  unfold lower. induction s as [|c s IH]; [done|].
  rewrite fmap_cons. simpl. rewrite isspace_lower.
  destruct (isspace c) eqn:E; [|by rewrite fmap_cons, IH].
  destruct s as [|c' s].
  - simpl. by rewrite (lower_space 32).
  - rewrite fmap_cons in *. rewrite isspace_lower.
    destruct (isspace c'); [done|].
    rewrite fmap_cons, IH. by rewrite (lower_space 32).
Qed.

Lemma lower_lower s : lower lower_char (lower lower_char s) = lower lower_char s.
Proof.
  unfold lower. rewrite <- list_fmap_compose. apply list_fmap_ext.
  intros i c _. apply lower_idemp.
Qed.

Lemma sub_punct_no_punctuation s : no_punctuation isword s → sub_punct isword s = s.
Proof.
  unfold sub_punct. induction 1 as [|c s Hc Hs IH]; simpl; [done|].
  by rewrite Hc, IH.
Qed.

Lemma no_punctuation_lower s : no_punctuation isword s → no_punctuation isword (lower lower_char s).
Proof.
  unfold no_punctuation, lower. intros H. apply Forall_fmap.
  eapply Forall_impl; [done|]. simpl. intros c [Hw|Hs]%orb_true_iff.
  - by rewrite lower_word.
  - by rewrite isspace_lower, Hs, orb_true_r.
Qed.

Lemma normalize_text_no_punctuation s :
  no_punctuation isword s →
  normalize_text lower_char isword (Text s) = sub_spaces (strip (lower lower_char s))
  ∧ no_punctuation isword (sub_spaces (strip (lower lower_char s))).
Proof.
  intros H.
  assert (no_punctuation isword (sub_spaces (strip (lower lower_char s)))) as H'.
  { apply Forall_sub_spaces; [apply orb_true_r|].
    by apply Forall_strip, no_punctuation_lower. }
  split; [|done]. cbn [normalize_text]. by apply sub_punct_no_punctuation.
Qed.


End Normalize.

(** The instance meets the assumptions on [str.lower] and [\w]. *)

Ltac decide_comparisons :=
  repeat match goal with
  | |- context [?a <=? ?b] =>
    first [rewrite (proj2 (N.leb_le a b)) by lia | rewrite (proj2 (N.leb_gt a b)) by lia]
  | |- context [?a =? ?b] =>
    first [rewrite (proj2 (N.eqb_eq a b)) by lia | rewrite (proj2 (N.eqb_neq a b)) by lia]
  end.

Lemma isspace_false_low c : 33 ≤ c ≤ 132 → isspace c = false.
Proof. intros H. unfold isspace. decide_comparisons. reflexivity. Qed.

Lemma isspace_false_mid c : 161 ≤ c ≤ 5759 → isspace c = false.
Proof. intros H. unfold isspace. decide_comparisons. reflexivity. Qed.

Lemma lower_latin_cyrillic_cases c :
  (lower_latin_cyrillic c = c)
  ∨ (65 ≤ c ≤ 90 ∧ lower_latin_cyrillic c = c + 32)
  ∨ (1040 ≤ c ≤ 1071 ∧ lower_latin_cyrillic c = c + 32)
  ∨ (1024 ≤ c ≤ 1039 ∧ lower_latin_cyrillic c = c + 80).
Proof.
  unfold lower_latin_cyrillic.
  destruct ((65 <=? c) && (c <=? 90)) eqn:E1.
  { apply andb_true_iff in E1 as [?%N.leb_le ?%N.leb_le]. right; left. done. }
  destruct ((1040 <=? c) && (c <=? 1071)) eqn:E2.
  { apply andb_true_iff in E2 as [?%N.leb_le ?%N.leb_le]. right; right; left. done. }
  destruct ((1024 <=? c) && (c <=? 1039)) eqn:E3.
  { apply andb_true_iff in E3 as [?%N.leb_le ?%N.leb_le]. right; right; right. done. }
  by left.
Qed.

Lemma lower_latin_cyrillic_idemp c :
  lower_latin_cyrillic (lower_latin_cyrillic c) = lower_latin_cyrillic c.
Proof.
  destruct (lower_latin_cyrillic_cases c) as [E|[[H ->]|[[H ->]|[H ->]]]];
    [by rewrite !E|..]; unfold lower_latin_cyrillic; decide_comparisons; reflexivity.
Qed.

Lemma lower_latin_cyrillic_space c :
  isspace c = true → lower_latin_cyrillic c = c.
Proof.
  intros Hs.
  destruct (lower_latin_cyrillic_cases c) as [E|[[H _]|[[H _]|[H _]]]]; [done|..];
    exfalso;
    first [rewrite isspace_false_low in Hs by lia
          |rewrite isspace_false_mid in Hs by lia]; done.
Qed.

Lemma lower_latin_cyrillic_not_space c :
  isspace c = false → isspace (lower_latin_cyrillic c) = false.
Proof.
  intros Hs.
  destruct (lower_latin_cyrillic_cases c) as [E|[[H ->]|[[H ->]|[H ->]]]];
    [by rewrite E|..];
    first [apply isspace_false_low; lia | apply isspace_false_mid; lia].
Qed.

Lemma lower_latin_cyrillic_word c :
  isword_latin_cyrillic c = true → isword_latin_cyrillic (lower_latin_cyrillic c) = true.
Proof.
  intros Hw.
  destruct (lower_latin_cyrillic_cases c) as [E|[[H ->]|[[H ->]|[H ->]]]];
    [by rewrite E|..]; unfold isword_latin_cyrillic; decide_comparisons;
    reflexivity.
Qed.



(** ** Header classification *)

Lemma find_split {A} (p : A → bool) (l : list A) x :
  List.find p l = Some x →
  ∃ l1 l2, l = l1 ++ x :: l2 ∧ p x = true ∧ ∀ y, y ∈ l1 → p y = false.
Proof.
  induction l as [|a l IH]; simpl; [done|].
  destruct (p a) eqn:E.
  - intros [= ->]. exists [], l. split; [done|]. split; [done|].
    intros y Hy. by apply elem_of_nil in Hy.
  - intros (l1 & l2 & -> & Hx & Hl1)%IH. exists (a :: l1), l2.
    split; [done|]. split; [done|].
    intros y [->|Hy]%elem_of_cons; auto.
Qed.

Lemma find_first {A} (p : A → bool) (l1 l2 : list A) x :
  p x = true → (∀ y, y ∈ l1 → p y = false) → List.find p (l1 ++ x :: l2) = Some x.
Proof.
  intros Hx. induction l1 as [|a l1 IH]; intros H; simpl.
  - by rewrite Hx.
  - rewrite (H a) by constructor. apply IH. intros y Hy. apply H. by constructor.
Qed.

Lemma find_at_or_before {A} (p : A → bool) (l1 l2 : list A) x :
  p x = true → ∃ y, List.find p (l1 ++ x :: l2) = Some y ∧ (y = x ∨ y ∈ l1).
Proof.
  intros Hx. induction l1 as [|a l1 (y & IH & Hy)]; simpl.
  - rewrite Hx. eauto.
  - destruct (p a).
    + exists a. split; [done|]. right. constructor.
    + exists y. split; [done|]. destruct Hy; [by left|right; by constructor].
Qed.

Lemma split_unique {A B} (f : A → B) (l1 l2 l1' l2' : list A) x x' :
  NoDup (f <$> (l1 ++ x :: l2)) →
  l1 ++ x :: l2 = l1' ++ x' :: l2' → f x = f x' →
  l1 = l1' ∧ x = x' ∧ l2 = l2'.
Proof.
  revert l1'. induction l1 as [|a l1 IH]; intros [|a' l1'] Hnd E Hf;
    simpl in E; cbn [app] in Hnd.
  - by injection E as -> ->.
  - injection E as -> ->. exfalso.
    rewrite fmap_cons in Hnd. apply NoDup_cons in Hnd as [Hn _]. apply Hn.
    rewrite Hf, fmap_app, fmap_cons, elem_of_app, elem_of_cons. auto.
  - injection E as -> <-. exfalso.
    rewrite fmap_cons in Hnd. apply NoDup_cons in Hnd as [Hn _]. apply Hn.
    rewrite <- Hf, fmap_app, fmap_cons, elem_of_app, elem_of_cons. auto.
  - injection E as -> E. rewrite fmap_cons in Hnd. apply NoDup_cons in Hnd as [_ Hnd].
    destruct (IH l1' Hnd E Hf) as (-> & -> & ->). done.
Qed.

Lemma NoDup_middle {A} (pre suf : list A) x :
  NoDup (pre ++ x :: suf) → (x ∉ pre) ∧ (x ∉ suf).
Proof.
  intros (_ & Hn & [Hs _]%NoDup_cons)%NoDup_app. split; [|done].
  intros Hx. apply (Hn x Hx). constructor.
Qed.

Section Classify.

Variable lower_char : N → N.
Variable rules : list (list N * (list N → bool)).

Abbreviation step := (rule_step lower_char rules).
Abbreviation cl := (classify lower_char rules).

Implicit Types (F h : list N) (hs pre suf : list (list N)).

Lemma classify_snoc hs h : cl (hs ++ [h]) = step (cl hs) h.
Proof. unfold classify. by rewrite foldl_app. Qed.

Lemma not_assigned F (m : gmap (list N) (list N)) h :
  assigned F m = false → m !! h ≠ Some F.
Proof.
  unfold assigned. intros H%bool_decide_eq_false E. apply H.
  apply elem_of_map_img. eauto.
Qed.

Lemma assigned_true F (m : gmap (list N) (list N)) :
  assigned F m = true → ∃ h, m !! h = Some F.
Proof. unfold assigned. intros H%bool_decide_eq_true. by apply elem_of_map_img in H. Qed.

Lemma step_other (m : gmap (list N) (list N)) h h' :
  h' ≠ h → step m h !! h' = m !! h'.
Proof.
  intros Hne. unfold rule_step. destruct (List.find _ _); [|done].
  by rewrite lookup_insert_ne.
Qed.

Lemma step_self (m : gmap (list N) (list N)) h F :
  m !! h = None →
  step m h !! h = Some F ↔
  ∃ r, List.find (rule_fires m (lower lower_char h)) rules = Some r ∧ r.1 = F.
Proof.
  intros Hm. unfold rule_step. destruct (List.find _ _) as [r|].
  - rewrite lookup_insert_eq. split; [intros [= <-]; eauto|by intros (r' & [= <-] & <-)].
  - rewrite Hm. split; [done|by intros (r' & ? & _)].
Qed.

Lemma classify_dom hs h F : cl hs !! h = Some F → h ∈ hs.
Proof.
  revert h F. induction hs as [|x hs IH] using rev_ind; intros h F.
  - unfold classify. simpl. by rewrite lookup_empty.
  - rewrite classify_snoc, elem_of_app, list_elem_of_singleton.
    destruct (decide (h = x)) as [->|Hne]; [auto|].
    rewrite step_other by done. eauto.
Qed.

Lemma classify_fresh hs h : h ∉ hs → cl hs !! h = None.
Proof.
  intros Hn. destruct (cl hs !! h) as [F|] eqn:E; [|done].
  by apply classify_dom in E.
Qed.

(** An assignment is never overwritten while the headers are distinct. *)
Lemma classify_stable pre suf h :
  NoDup (pre ++ suf) → h ∈ pre → cl (pre ++ suf) !! h = cl pre !! h.
Proof.
  intros Hnd Hh. induction suf as [|x suf IH] using rev_ind.
  - by rewrite app_nil_r.
  - rewrite app_assoc in *. rewrite classify_snoc.
    apply NoDup_app in Hnd as (Hnd & Hx & _).
    rewrite step_other; [by apply IH|].
    intros ->. apply (Hx x); [|constructor]. apply elem_of_app. auto.
Qed.

(** Each canonical field has at most one header. *)
Lemma classify_injective hs h1 h2 F :
  cl hs !! h1 = Some F → cl hs !! h2 = Some F → h1 = h2.
Proof.
  revert h1 h2 F. induction hs as [|x hs IH] using rev_ind; intros h1 h2 F.
  - unfold classify. simpl. by rewrite lookup_empty.
  - rewrite classify_snoc. unfold rule_step.
    destruct (List.find _ _) as [r|] eqn:E; [|apply IH].
    apply find_split in E as (_ & _ & _ & [Hr _]%andb_true_iff & _).
    apply negb_true_iff in Hr.
    rewrite !lookup_insert. repeat case_decide; subst; try done.
    + intros [= <-] Hm. by apply not_assigned with (h := h2) in Hr.
    + intros Hm [= <-]. by apply not_assigned with (h := h1) in Hr.
    + apply IH.
Qed.

Lemma classify_at pre suf h :
  NoDup (pre ++ h :: suf) → cl (pre ++ h :: suf) !! h = step (cl pre) h !! h.
Proof.
  intros Hnd. rewrite (cons_middle h pre suf), app_assoc in *.
  rewrite classify_stable, classify_snoc; [done|done|].
  apply elem_of_app. right. constructor.
Qed.

Lemma classify_at_rule pre suf h :
  NoDup (pre ++ h :: suf) →
  cl (pre ++ h :: suf) !! h =
  (λ r, r.1) <$> List.find (rule_fires (cl pre) (lower lower_char h)) rules.
Proof.
  intros Hnd. rewrite classify_at by done. unfold rule_step.
  destruct (List.find _ _) as [r|]; simpl; [by rewrite lookup_insert_eq|].
  apply classify_fresh. by apply NoDup_middle in Hnd as [? _].
Qed.

Variables (before after : list (list N * (list N → bool))).
Variables (F : list N) (t : list N → bool).
Hypothesis rules_split : rules = before ++ (F, t) :: after.
Hypothesis rules_NoDup : NoDup rules.*1.

Lemma field_not_before : F ∉ before.*1.
Proof.
  rewrite rules_split, fmap_app, fmap_cons in rules_NoDup.
  by apply NoDup_middle in rules_NoDup as [? _].
Qed.

Lemma fired_rule m col_name r :
  List.find (rule_fires m col_name) rules = Some r → r.1 = F →
  r = (F, t) ∧ assigned F m = false ∧ t col_name = true.
Proof.
  intros (b' & a' & E & [Hr Ht]%andb_true_iff & _)%find_split HF.
  rewrite rules_split in E, rules_NoDup.
  destruct (split_unique fst _ _ _ _ _ _ rules_NoDup E (eq_sym HF)) as (_ & <- & _).
  simpl in *. by apply negb_true_iff in Hr.
Qed.

Lemma fires_then_chosen m col_name :
  assigned F m = false → t col_name = true →
  ∃ r, List.find (rule_fires m col_name) rules = Some r ∧ (r = (F, t) ∨ r ∈ before).
Proof.
  intros Ha Ht. rewrite rules_split. apply find_at_or_before.
  unfold rule_fires. simpl. by rewrite Ha, Ht.
Qed.

(** No header before [h] holds the field when it is still free. *)
Lemma free_before pre suf h0 :
  NoDup (pre ++ suf) → assigned F (cl pre) = true →
  ∃ h0, h0 ∈ pre ∧ cl (pre ++ suf) !! h0 = Some F.
Proof.
  intros Hnd [h1 Hh1]%assigned_true. exists h1.
  assert (h1 ∈ pre) by (by eapply classify_dom). split; [done|].
  by rewrite classify_stable.
Qed.

Lemma retained_is_first hs h :
  NoDup hs → cl hs !! h = Some F →
  List.find (candidate lower_char before t (cl hs)) hs = Some h.
Proof.
  intros Hnd Hm.
  destruct (list_elem_of_split hs h) as (pre & suf & ->); [by eapply classify_dom|].
  pose proof (NoDup_middle _ _ _ Hnd) as [Hpre _].
  pose proof Hm as Hm'. rewrite classify_at_rule in Hm' by done.
  destruct (List.find _ rules) as [r|] eqn:Er; [|done]. injection Hm' as Hr.
  destruct (fired_rule _ _ _ Er Hr) as (-> & HF & Ht).
  apply find_first.
  - unfold candidate, taken. rewrite Ht, Hm.
    rewrite bool_decide_eq_false_2; [done|apply field_not_before].
  - intros h' Hh'. destruct (candidate _ _ _ _ h') eqn:Ec; [exfalso|done].
    apply andb_true_iff in Ec as [Ht' Htk%negb_true_iff].
    apply list_elem_of_split in Hh' as (p1 & p2 & ->).
    rewrite <- app_assoc in Hnd, Hm, Htk. simpl in Hnd, Hm, Htk.
    assert (assigned F (cl p1) = false) as Hfree.
    { destruct (assigned F (cl p1)) eqn:Ea; [exfalso|done].
      destruct (free_before p1 (h' :: p2 ++ h :: suf) h Hnd Ea) as (h0 & Hh0 & Hm0).
      assert (h0 = h) as -> by (by eapply classify_injective).
      apply Hpre. apply elem_of_app. auto. }
    destruct (fires_then_chosen _ _ Hfree Ht') as (r & Er' & Hcase).
    assert (cl (p1 ++ h' :: p2 ++ h :: suf) !! h' = Some r.1) as Hh'.
    { rewrite classify_at_rule by done. by rewrite Er'. }
    destruct Hcase as [->|Hb].
    + assert (h' = h) as -> by (by eapply classify_injective).
      apply Hpre. rewrite elem_of_app, elem_of_cons. auto.
    + unfold taken in Htk. rewrite Hh' in Htk.
      apply bool_decide_eq_false in Htk. apply Htk.
      apply list_elem_of_fmap. eauto.
Qed.

Lemma first_is_retained hs h :
  NoDup hs →
  List.find (candidate lower_char before t (cl hs)) hs = Some h →
  cl hs !! h = Some F.
Proof.
  intros Hnd Hfind. pose proof Hfind as Hfind'.
  apply find_split in Hfind' as (pre & suf & -> & [Ht Htk%negb_true_iff]%andb_true_iff & _).
  pose proof (NoDup_middle _ _ _ Hnd) as [Hpre _].
  destruct (assigned F (cl pre)) eqn:Ea.
  - exfalso. destruct (free_before pre (h :: suf) h Hnd Ea) as (h0 & Hh0 & Hm0).
    apply retained_is_first in Hm0; [|done].
    rewrite Hfind in Hm0. injection Hm0 as ->. done.
  - destruct (fires_then_chosen _ _ Ea Ht) as (r & Er & Hcase).
    assert (cl (pre ++ h :: suf) !! h = Some r.1) as Hh.
    { rewrite classify_at_rule by done. by rewrite Er. }
    destruct Hcase as [->|Hb]; [done|exfalso].
    unfold taken in Htk. rewrite Hh in Htk.
    apply bool_decide_eq_false in Htk. apply Htk.
    apply list_elem_of_fmap. eauto.
Qed.

End Classify.

Lemma id_step_rule lower_char m col :
  id_step lower_char m col = rule_step lower_char id_rules m col.
Proof.
  unfold id_step, rule_step, id_rules, rule_fires. cbn [List.find fst snd].
  repeat (destruct (_ && _); [reflexivity|]). reflexivity.
Qed.

Lemma structure_step_rule lower_char m col :
  structure_step lower_char m col = rule_step lower_char structure_rules m col.
Proof.
  unfold structure_step, rule_step, structure_rules, rule_fires. cbn [List.find fst snd].
  repeat (rewrite (andb_comm (negb _)); destruct (_ && negb _); [reflexivity|]).
  reflexivity.
Qed.

Lemma id_column_mapping_classify lower_char cols :
  id_column_mapping lower_char cols = classify lower_char id_rules cols.
Proof. apply foldl_ext_all. apply id_step_rule. Qed.

Lemma structure_column_mapping_classify lower_char cols :
  structure_column_mapping lower_char cols = classify lower_char structure_rules cols.
Proof. apply foldl_ext_all. apply structure_step_rule. Qed.

Lemma NoDup_id_rules : NoDup id_rules.*1.
Proof. cbn. repeat constructor; rewrite ?elem_of_cons, ?elem_of_nil; intuition discriminate. Qed.

Lemma NoDup_structure_rules : NoDup structure_rules.*1.
Proof. cbn. repeat constructor; rewrite ?elem_of_cons, ?elem_of_nil; intuition discriminate. Qed.

Lemma schema_mapping_classify lower_char rules hs m :
  schema_mapping lower_char rules hs m →
  m = classify lower_char rules hs ∧ NoDup rules.*1.
Proof.
  intros [[-> ->]|[-> ->]].
  - split; [apply id_column_mapping_classify|apply NoDup_id_rules].
  - split; [apply structure_column_mapping_classify|apply NoDup_structure_rules].
Qed.

(** C4, amended.  For distinct headers classified under either schema, a
    canonical field is given to at most one header, an assignment made for a
    prefix of the header list is still there at the end, and the header
    that holds a field is the first one, in column order, that passes the
    keyword test of the field and holds no field tested before it. *)
Theorem first_match_wins lower_char rules hs m :
  NoDup hs →
  schema_mapping lower_char rules hs m →
  (∀ h1 h2 F, m !! h1 = Some F → m !! h2 = Some F → h1 = h2)
  ∧ (∀ pre suf h F, hs = pre ++ suf →
       classify lower_char rules pre !! h = Some F → m !! h = Some F)
  ∧ (∀ before F t after h, rules = before ++ (F, t) :: after →
       (m !! h = Some F ↔ List.find (candidate lower_char before t m) hs = Some h)).
Proof.
  intros Hnd [-> Hr]%schema_mapping_classify. split; [|split].
  - intros h1 h2 F. apply classify_injective.
  - intros pre suf h F -> E. rewrite classify_stable; [done|done|].
    by eapply classify_dom.
  - intros before F t after h Hrules. split.
    + by eapply retained_is_first.
    + by eapply first_is_retained.
Qed.

(** C4, counterexample.  Of two headers that pass the test of the documented
    volume, the second one is not left out: it takes the work type, and the
    two work type headers after it stay unmapped.  The header that holds the
    work type is therefore neither the first header that passes the work
    type test nor the first header whose first passed test is that one. *)
Lemma first_match_wins_fails :
  id_column_mapping lower_latin_cyrillic ex_id_headers !! ex_volume1 = Some DocumentedVolume
  ∧ id_column_mapping lower_latin_cyrillic ex_id_headers !! ex_volume2 = Some WorkType
  ∧ id_column_mapping lower_latin_cyrillic ex_id_headers !! ex_work1 = None
  ∧ List.find (λ h, is_work_type (lower lower_latin_cyrillic h)) ex_id_headers
    = Some ex_volume1
  ∧ List.find (λ h, bool_decide (first_rule id_rules (lower lower_latin_cyrillic h)
                                 = Some WorkType)) ex_id_headers
    = Some ex_work1
  ∧ ¬ retains_first_passing lower_latin_cyrillic id_rules ex_id_headers
  ∧ ¬ retains_first_candidate lower_latin_cyrillic id_rules ex_id_headers.
Proof.
  assert (classify lower_latin_cyrillic id_rules ex_id_headers !! ex_volume2
          = Some WorkType) as Hm by (vm_compute; reflexivity).
  split; [vm_compute; reflexivity|].
  split; [vm_compute; reflexivity|].
  split; [vm_compute; reflexivity|].
  split; [vm_compute; reflexivity|].
  split; [vm_compute; reflexivity|].
  split.
  - intros H. specialize (H WorkType is_work_type ex_volume2).
    assert ((WorkType, is_work_type) ∈ id_rules) as Hin.
    { unfold id_rules. rewrite !elem_of_cons. auto. }
    specialize (H Hin Hm). vm_compute in H. discriminate H.
  - intros H. specialize (H WorkType ex_volume2 Hm). vm_compute in H. discriminate H.
Qed.

Lemma first_match_wins_witness :
  NoDup ex_structure_headers
  ∧ schema_mapping lower_latin_cyrillic structure_rules ex_structure_headers
      (structure_column_mapping lower_latin_cyrillic ex_structure_headers)
  ∧ (∀ h1 h2 F,
       structure_column_mapping lower_latin_cyrillic ex_structure_headers !! h1 = Some F →
       structure_column_mapping lower_latin_cyrillic ex_structure_headers !! h2 = Some F →
       h1 = h2).
Proof.
  assert (NoDup ex_structure_headers) as Hnd.
  { apply (bool_decide_unpack _). vm_compute. exact I. }
  assert (schema_mapping lower_latin_cyrillic structure_rules ex_structure_headers
            (structure_column_mapping lower_latin_cyrillic ex_structure_headers)) as Hs.
  { right. split; reflexivity. }
  split; [exact Hnd|]. split; [exact Hs|].
  exact (proj1 (first_match_wins _ _ _ _ Hnd Hs)).
Defined.

(** ** The loaders *)

Lemma elem_of_available needed cols c :
  c ∈ available needed cols ↔ c ∈ needed ∧ c ∈ cols.
Proof. unfold available. by rewrite elem_of_filter, bool_decide_eq_true. Qed.

Lemma available_all needed cols :
  (∀ c, c ∈ needed → c ∈ cols) → available needed cols = needed.
Proof.
  intros H. unfold available. induction needed as [|c needed IH]; [done|]. simpl.
  rewrite bool_decide_eq_true_2 by (apply H; constructor).
  f_equal. apply IH. intros c' Hc'. apply H. by constructor.
Qed.

Lemma id_insufficient_true available_cols :
  id_insufficient available_cols = true ↔
  PackageCode ∉ available_cols ∨ DocumentedVolume ∉ available_cols
  ∨ (length available_cols < 2)%nat.
Proof.
  unfold id_insufficient.
  rewrite !orb_true_iff, !negb_true_iff, !bool_decide_eq_false, Nat.ltb_lt. tauto.
Qed.

Section Loaders.

Variable lower_char : N → N.
Variable parse_number : list N → option Z.






End Loaders.

Lemma id_below_threshold_insufficient lower_char df :
  id_below_threshold lower_char df →
  id_insufficient (available id_needed_cols (id_columns lower_char df)) = true.
Proof.
  unfold id_below_threshold. rewrite id_insufficient_true, !elem_of_available.
  intros [H|[H|H]]; [left|right; left|right; right]; tauto.
Qed.



(** ** Example tables *)

Lemma cols_present (l cols : list (list N)) :
  forallb (λ c, bool_decide (c ∈ cols)) l = true → ∀ c, c ∈ l → c ∈ cols.
Proof.
  intros H c Hc. rewrite forallb_elem in H. apply (bool_decide_eq_true_1 _). by apply H.
Qed.

Lemma keys_bar_free (key3 : gmap (list N) cell → list N * list N * list N)
    (l : list (gmap (list N) cell)) :
  forallb (λ d, bool_decide (bar_free_key (key3 d))) l = true →
  ∀ d, d ∈ l → bar_free_key (key3 d).
Proof.
  intros H d Hd. rewrite forallb_elem in H. apply (bool_decide_eq_true_1 _). by apply H.
Qed.


Lemma missing_fields_no_match_witness :
  ((∃ c, c ∈ required_id_cols ∧ c ∉ columns ex_id_no_work_type)
   ∨ (∃ c, c ∈ structure_key_cols ∧ c ∉ columns ex_pivot_A))
  ∧ optimize_matching ex_pivot_A ex_id_no_work_type = ex_pivot_A.
Proof.
  assert ((∃ c, c ∈ required_id_cols ∧ c ∉ columns ex_id_no_work_type)
          ∨ (∃ c, c ∈ structure_key_cols ∧ c ∉ columns ex_pivot_A)) as H.
  { left. exists WorkType. split; apply (bool_decide_unpack _); vm_compute; exact I. }
  split; [exact H|].
  exact (proj1 (missing_fields_no_match lower_latin_cyrillic parse_unsigned _ _ H)).
Defined.

(** C3, counterexample.  "Wall  1" and "Wall 1" are equal once runs of
    whitespace are collapsed, yet the structure row with the first receives
    nothing from the documentation row with the second; keys that differ in
    case do not match either. *)
Lemma inner_whitespace_not_collapsed :
  sub_spaces (strip (u "Wall  1")) = sub_spaces (strip (u "Wall 1"))
  ∧ structure_key3 ex_row_spaces ≠ id_key3 (id_row (u "AB-12") (u "Wall 1") (u "Concreting") 50)
  ∧ (λ r, get r ConfirmedByDocs) <$> rows (optimize_matching ex_pivot_spaces ex_id_spaces)
    = [Num 0]
  ∧ (λ r, get r ConfirmedByDocs) <$> rows (optimize_matching ex_pivot_A ex_id_case)
    = [Num 0].
Proof.
  split; [vm_compute; reflexivity|].
  split; [vm_compute; discriminate|].
  split; vm_compute; reflexivity.
Qed.

Lemma key_normalization_trims_only_witness :
  (∀ c, c ∈ required_id_cols → c ∈ columns ex_id_A)
  ∧ (∀ c, c ∈ structure_key_cols → c ∈ columns ex_pivot_A)
  ∧ rows ex_pivot_A !! 0%nat = Some ex_row_A
  ∧ bar_free_key (structure_key3 ex_row_A)
  ∧ (∀ d, d ∈ rows ex_id_A → bar_free_key (id_key3 d))
  ∧ ∃ r', rows (optimize_matching ex_pivot_A ex_id_A) !! 0%nat = Some r'
          ∧ get r' ConfirmedByDocs = Num 80.
Proof.
  assert (∀ c, c ∈ required_id_cols → c ∈ columns ex_id_A) as H1.
  { apply cols_present. vm_compute. reflexivity. }
  assert (∀ c, c ∈ structure_key_cols → c ∈ columns ex_pivot_A) as H2.
  { apply cols_present. vm_compute. reflexivity. }
  assert (bar_free_key (structure_key3 ex_row_A)) as H3.
  { apply (bool_decide_unpack _). vm_compute. exact I. }
  assert (∀ d, d ∈ rows ex_id_A → bar_free_key (id_key3 d)) as H4.
  { apply keys_bar_free. vm_compute. reflexivity. }
  split; [exact H1|]. split; [exact H2|]. split; [reflexivity|].
  split; [exact H3|]. split; [exact H4|].
  destruct (key_normalization_trims_only ex_pivot_A ex_id_A 0 ex_row_A H1 H2 eq_refl H3 H4)
    as (_ & r' & Hr & Hv).
  exists r'. split; [exact Hr|]. rewrite Hv. vm_compute. reflexivity.
Defined.





(** ** clean_dataframe_columns *)

From Stdlib Require DecimalNat DecimalFacts.

Lemma digits_of_uint_inj d1 d2 : digits_of_uint d1 = digits_of_uint d2 → d1 = d2.
Proof.
  revert d2. induction d1 as [|d1 IH|d1 IH|d1 IH|d1 IH|d1 IH|d1 IH|d1 IH|d1 IH|d1 IH|d1 IH];
    intros [] H; simpl in H; try discriminate H; try done;
    injection H as H; f_equal; by apply IH.
Qed.

Lemma str_of_nat_inj a b : str_of_nat a = str_of_nat b → a = b.
Proof. intros H. by apply DecimalNat.Unsigned.to_uint_inj, digits_of_uint_inj. Qed.

Lemma dup_name_inj col a b : dup_name col a = dup_name col b → a = b.
Proof.
  unfold dup_name. intros H. apply app_inv_head in H. apply app_inv_head in H.
  by apply str_of_nat_inj.
Qed.

(** The [while] loop: the counter it stops at, all smaller counters being
    taken. *)
Lemma next_dup_spec fuel seen col k :
  (k ≤ next_dup fuel seen col k ≤ k + fuel)%nat
  ∧ (∀ j, (k ≤ j < next_dup fuel seen col k)%nat → dup_name col j ∈ seen)
  ∧ (dup_name col (next_dup fuel seen col k) ∉ seen
     ∨ next_dup fuel seen col k = (k + fuel)%nat).
Proof.
  revert k. induction fuel as [|fuel IH]; intros k; simpl.
  - split; [lia|]. split; [intros j Hj; lia|right; lia].
  - case_bool_decide as Hin.
    + destruct (IH (S k)) as (H1 & H2 & H3). split; [lia|]. split.
      * intros j Hj. destruct (decide (j = k)) as [->|Hne]; [done|].
        apply H2. lia.
      * destruct H3 as [H3|H3]; [by left|right; lia].
    + split; [lia|]. split; [intros j Hj; lia|by left].
Qed.

(** With the size of the set as fuel the loop has found a free name: the
    names [col_dup1], ..., [col_dup<n>] cannot all be among n names and leave
    room for another one. *)
Lemma next_dup_fresh (seen : gset (list N)) col :
  dup_name col (next_dup (size seen) seen col 1) ∉ seen.
Proof.
  destruct (next_dup_spec (size seen) seen col 1) as (_ & Hall & [Hfree|Hlast]); [done|].
  intros Hin. rewrite Hlast in Hall, Hin.
  set (l := dup_name col <$> seq 1 (size seen)).
  assert (NoDup l) as Hnd.
  { apply NoDup_fmap_2_strong; [|apply NoDup_seq].
    intros a b _ _. apply dup_name_inj. }
  assert (list_to_set l = seen) as Heq.
  { apply set_subseteq_size_eq.
    - intros x [j [-> Hj%elem_of_seq]]%elem_of_list_to_set%list_elem_of_fmap.
      apply Hall. lia.
    - rewrite size_list_to_set by done. unfold l. by rewrite length_fmap, length_seq. }
  assert (dup_name col (1 + size seen)%nat ∈ (list_to_set l : gset (list N))) as Hl
    by (by rewrite Heq).
  apply elem_of_list_to_set, list_elem_of_fmap in Hl as [j [Hj1 Hj2%elem_of_seq]].
  apply dup_name_inj in Hj1. lia.
Qed.

Lemma next_dup_ge fuel seen col k : (k ≤ next_dup fuel seen col k)%nat.
Proof. destruct (next_dup_spec fuel seen col k) as [H _]. lia. Qed.

Lemma dedup_step_eq new seen col :
  dedup_step (new, seen) col = (new ++ [dedup_name seen col], {[dedup_name seen col]} ∪ seen).
Proof. unfold dedup_step, dedup_name. by case_bool_decide. Qed.

Lemma dedup_name_fresh seen col : dedup_name seen col ∉ seen.
Proof. unfold dedup_name. case_bool_decide; [done|apply next_dup_fresh]. Qed.

Lemma dedup_name_renamed seen col : renamed_from col (dedup_name seen col).
Proof.
  unfold dedup_name, renamed_from. case_bool_decide; [by left|right].
  eexists. split; [apply next_dup_ge|done].
Qed.

Lemma dedup_fold cols new :
  NoDup new →
  NoDup (foldl dedup_step (new, list_to_set new) cols).1
  ∧ length (foldl dedup_step (new, list_to_set new) cols).1
    = (length new + length cols)%nat.
Proof.
  revert new. induction cols as [|c cols IH]; intros new Hnd; cbn [foldl].
  - simpl. split; [done|lia].
  - rewrite dedup_step_eq.
    assert ({[dedup_name (list_to_set new) c]} ∪ list_to_set new
            = (list_to_set (new ++ [dedup_name (list_to_set new) c]) : gset (list N))) as ->.
    { rewrite list_to_set_snoc_L. apply union_comm_L. }
    destruct (IH (new ++ [dedup_name (list_to_set new) c])) as [H1 H2].
    + apply NoDup_app. split; [done|]. split; [|apply NoDup_singleton].
      intros x Hx ->%list_elem_of_singleton.
      apply (dedup_name_fresh (list_to_set new) c). by apply elem_of_list_to_set.
    + split; [done|]. rewrite H2, length_app. simpl. lia.
Qed.

Lemma dedup_fold_names cols pre new seen :
  Forall2 renamed_from pre new →
  Forall2 renamed_from (pre ++ cols) (foldl dedup_step (new, seen) cols).1.
Proof.
  revert pre new seen. induction cols as [|c cols IH]; intros pre new seen H; cbn [foldl].
  - simpl. by rewrite app_nil_r.
  - rewrite dedup_step_eq. rewrite (cons_middle c pre cols), app_assoc. apply IH.
    apply Forall2_app; [done|]. constructor; [apply dedup_name_renamed|constructor].
Qed.

(** The loop leaves a header list without duplicates as it is. *)
Lemma dedup_fold_fixed cols new :
  NoDup (new ++ cols) →
  (foldl dedup_step (new, list_to_set new) cols).1 = new ++ cols.
Proof.
  revert new. induction cols as [|c cols IH]; intros new Hnd; cbn [foldl].
  - simpl. by rewrite app_nil_r.
  - rewrite dedup_step_eq.
    assert (dedup_name (list_to_set new) c = c) as ->.
    { unfold dedup_name. rewrite bool_decide_eq_true_2; [done|].
      rewrite elem_of_list_to_set. apply NoDup_app in Hnd as (_ & Hnd & _).
      intros Hc. apply (Hnd c Hc). constructor. }
    assert ({[c]} ∪ list_to_set new = (list_to_set (new ++ [c]) : gset (list N))) as ->.
    { rewrite list_to_set_snoc_L. apply union_comm_L. }
    rewrite IH; [by rewrite <- app_assoc|]. by rewrite <- app_assoc.
Qed.

Lemma dedup_columns_NoDup cols : NoDup (dedup_columns cols).
Proof.
  unfold dedup_columns.
  assert ((∅ : gset (list N)) = list_to_set []) as -> by done.
  apply dedup_fold. constructor.
Qed.

Lemma dedup_columns_length cols : length (dedup_columns cols) = length cols.
Proof.
  unfold dedup_columns.
  assert ((∅ : gset (list N)) = list_to_set []) as -> by done.
  destruct (dedup_fold cols []) as [_ ->]; [constructor|done].
Qed.

Lemma dedup_columns_fixed cols : NoDup cols → dedup_columns cols = cols.
Proof.
  intros H. unfold dedup_columns.
  assert ((∅ : gset (list N)) = list_to_set []) as -> by done.
  by rewrite dedup_fold_fixed.
Qed.

Lemma clean_column_names_dedup cols :
  clean_column_names cols = dedup_columns (strip <$> cols).
Proof.
  unfold clean_column_names. case_bool_decide; [|done].
  by rewrite dedup_columns_fixed.
Qed.

Lemma NoDup_clean_column_names cols : NoDup (clean_column_names cols).
Proof. rewrite clean_column_names_dedup. apply dedup_columns_NoDup. Qed.

Lemma length_clean_column_names cols :
  length (clean_column_names cols) = length cols.
Proof. by rewrite clean_column_names_dedup, dedup_columns_length, length_fmap. Qed.

Lemma clean_column_names_renamed cols :
  Forall2 renamed_from (strip <$> cols) (clean_column_names cols).
Proof.
  rewrite clean_column_names_dedup. unfold dedup_columns.
  pose proof (dedup_fold_names (strip <$> cols) [] [] ∅) as H. apply H. constructor.
Qed.

(** X1 (clean_dataframe_columns).  The header list the function leaves has
    no duplicates and as many names as the sheet has columns; the name in a
    position is the trimmed header of that position, or that header with a
    suffix [_dup<k>], k >= 1.  In particular the [while] loop that looks for
    a free suffix always finds one. *)
Theorem clean_column_names_distinct (cols : list (list N)) :
  NoDup (clean_column_names cols)
  ∧ length (clean_column_names cols) = length cols
  ∧ ∀ i c, cols !! i = Some c →
      ∃ n, clean_column_names cols !! i = Some n ∧ renamed_from (strip c) n.
Proof.
  split; [apply NoDup_clean_column_names|]. split; [apply length_clean_column_names|].
  intros i c Hc.
  pose proof (clean_column_names_renamed cols) as H.
  assert ((strip <$> cols) !! i = Some (strip c)) as Hs by (by rewrite list_lookup_fmap, Hc).
  destruct (Forall2_lookup_l _ _ _ _ _ H Hs) as (n & Hn & Hr). eauto.
Qed.

(** X2 (clean_dataframe_columns).  The duplicate test of line 115 only saves
    work: the renaming loop alone gives the same header list, because it
    leaves a duplicate-free list unchanged. *)
Theorem duplicate_test_is_shortcut (cols : list (list N)) :
  clean_column_names cols = dedup_columns (strip <$> cols)
  ∧ (NoDup (strip <$> cols) → dedup_columns (strip <$> cols) = strip <$> cols).
Proof. split; [apply clean_column_names_dedup|apply dedup_columns_fixed]. Qed.

(** Values stay in their positions when the header list is replaced. *)
Lemma get_zip_lookup (names : list (list N)) (vals : list cell) i n v :
  NoDup names → names !! i = Some n → vals !! i = Some v →
  get (list_to_map (zip names vals)) n = v.
Proof.
  intros Hnd Hn Hv. unfold get.
  rewrite (elem_of_list_to_map_1' (zip names vals) n v); [done| |].
  - intros y [j Hj]%list_elem_of_lookup_1. apply lookup_zip_Some in Hj as [Hj1 Hj2].
    assert (j = i) as -> by (by eapply NoDup_lookup). congruence.
  - apply list_elem_of_lookup_2 with i. by apply lookup_zip_Some.
Qed.

Lemma get_set_columns names df i j n c r :
  NoDup names → names !! i = Some n → columns df !! i = Some c →
  rows df !! j = Some r →
  ∃ r', rows (set_columns names df) !! j = Some r' ∧ get r' n = get r c.
Proof.
  intros Hnd Hn Hc Hr. unfold set_columns. cbn [rows].
  rewrite list_lookup_fmap, Hr. eexists. split; [done|].
  apply get_zip_lookup with i; [done|done|]. by rewrite list_lookup_fmap, Hc.
Qed.

(** X3 (clean_dataframe_columns).  The function renames and nothing else:
    the table keeps its rows, and the value a row has in a column position
    is the value it had there before, under the new name of the position. *)
Theorem clean_dataframe_columns_values df i j c r :
  columns df !! i = Some c → rows df !! j = Some r →
  length (rows (clean_dataframe_columns df)) = length (rows df)
  ∧ ∃ n r', columns (clean_dataframe_columns df) !! i = Some n
            ∧ rows (clean_dataframe_columns df) !! j = Some r'
            ∧ get r' n = get r c.
Proof.
  intros Hc Hr. split.
  { unfold clean_dataframe_columns, set_columns. cbn [rows]. by rewrite length_fmap. }
  destruct (lookup_lt_is_Some_2 (clean_column_names (columns df)) i) as [n Hn].
  { rewrite length_clean_column_names. by eapply lookup_lt_Some. }
  destruct (get_set_columns (clean_column_names (columns df)) df i j n c r)
    as (r' & H1 & H2); try done; [apply NoDup_clean_column_names|].
  exists n, r'. done.
Qed.

Lemma clean_dataframe_columns_values_witness :
  ∃ n r', columns (clean_dataframe_columns ex_sheet_dup_headers) !! 1%nat = Some n
          ∧ rows (clean_dataframe_columns ex_sheet_dup_headers) !! 0%nat = Some r'
          ∧ get r' n = Num 2.
Proof.
  destruct (clean_dataframe_columns_values ex_sheet_dup_headers 1 0 (u "a")
              (list_to_map [(u " a", Num 1); (u "a", Num 2); (u "b", Num 3)]))
    as (_ & n & r' & H1 & H2 & H3); [reflexivity|reflexivity|].
  exists n, r'. split; [exact H1|]. split; [exact H2|]. rewrite H3. vm_compute. reflexivity.
Defined.

(** ** The loaders: what a loaded table looks like *)

Lemma fold_columns_spec (step : DataFrame → list N → DataFrame)
    (h : list N → cell → cell) :
  (∀ df col, col ∈ columns df →
     columns (step df col) = columns df
     ∧ ∃ g : gmap (list N) cell → gmap (list N) cell,
         rows (step df col) = g <$> rows df
         ∧ ∀ r c, get (g r) c = if bool_decide (c = col) then h col (get r c) else get r c) →
  ∀ cols df, NoDup cols → (∀ c, c ∈ cols → c ∈ columns df) →
  columns (foldl step df cols) = columns df
  ∧ ∃ g : gmap (list N) cell → gmap (list N) cell,
      rows (foldl step df cols) = g <$> rows df
      ∧ ∀ r c, get (g r) c = if bool_decide (c ∈ cols) then h c (get r c) else get r c.
Proof.
  intros Hstep cols. induction cols as [|c0 cols IH]; intros df Hnd Hin; cbn [foldl].
  - split; [done|]. exists id. split; [by rewrite list_fmap_id|].
    intros r c. rewrite bool_decide_eq_false_2; [done|apply not_elem_of_nil].
  - apply NoDup_cons in Hnd as [Hc0 Hnd].
    destruct (Hstep df c0) as (Hcols & g0 & Hrows0 & Hg0); [apply Hin; constructor|].
    destruct (IH (step df c0) Hnd) as (Hcols1 & g1 & Hrows1 & Hg1).
    { intros c Hc. rewrite Hcols. apply Hin. by constructor. }
    split; [by rewrite Hcols1|]. exists (g1 ∘ g0). split.
    + by rewrite Hrows1, Hrows0, <- list_fmap_compose.
    + intros r c. simpl. rewrite Hg1, Hg0.
      destruct (decide (c = c0)) as [->|Hne].
      * rewrite (bool_decide_eq_false_2 (c0 ∈ cols)) by done.
        rewrite !bool_decide_eq_true_2; [done|constructor|done].
      * rewrite (bool_decide_eq_false_2 (c = c0)) by done.
        assert (bool_decide (c ∈ c0 :: cols) = bool_decide (c ∈ cols)) as ->; [|done].
        apply bool_decide_ext. rewrite elem_of_cons. naive_solver.
Qed.

Lemma assign_step c (f : cell → cell) df :
  c ∈ columns df →
  columns (assign c (λ r, f (get r c)) df) = columns df
  ∧ ∃ g : gmap (list N) cell → gmap (list N) cell,
      rows (assign c (λ r, f (get r c)) df) = g <$> rows df
      ∧ ∀ r c', get (g r) c' = if bool_decide (c' = c) then f (get r c') else get r c'.
Proof.
  intros Hc. split.
  - unfold assign. cbn [columns]. by rewrite (proj2 (has_col_elem df c) Hc).
  - exists (λ r, <[c := f (get r c)]> r). split; [done|].
    intros r c'. case_bool_decide as E.
    + subst. apply get_insert_eq.
    + apply get_insert_ne. congruence.
Qed.

Lemma keep_step df (col : list N) (h : cell → cell) :
  (∀ c, h c = c) →
  columns df = columns df
  ∧ ∃ g : gmap (list N) cell → gmap (list N) cell,
      rows df = g <$> rows df
      ∧ ∀ r c', get (g r) c' = if bool_decide (c' = col) then h (get r c') else get r c'.
Proof.
  intros Hh. split; [done|]. exists id. split; [by rewrite list_fmap_id|].
  intros r c'. simpl. by case_bool_decide.
Qed.

Section LoadedTables.

Variable lower_char : N → N.
Variable parse_number : list N → option Z.

Lemma structure_clean_col_step df col :
  col ∈ columns df →
  columns (structure_clean_col parse_number df col) = columns df
  ∧ ∃ g : gmap (list N) cell → gmap (list N) cell,
      rows (structure_clean_col parse_number df col) = g <$> rows df
      ∧ ∀ r c, get (g r) c = if bool_decide (c = col)
                             then structure_cell parse_number col (get r c) else get r c.
Proof.
  intros Hc. unfold structure_clean_col, structure_cell.
  case_bool_decide;
    [by apply (assign_step col (λ c, str_strip (astype_str (fillna (Text []) c))))|].
  case_bool_decide;
    [by apply (assign_step col (λ c, fillna (Num 0) (to_numeric parse_number c)))|].
  by apply (keep_step df col (λ c, c)).
Qed.

Lemma id_clean_col_step df col :
  col ∈ columns df →
  columns (id_clean_col parse_number df col) = columns df
  ∧ ∃ g : gmap (list N) cell → gmap (list N) cell,
      rows (id_clean_col parse_number df col) = g <$> rows df
      ∧ ∀ r c, get (g r) c = if bool_decide (c = col)
                             then id_cell parse_number col (get r c) else get r c.
Proof.
  intros Hc. unfold id_clean_col, id_cell.
  case_bool_decide;
    [by apply (assign_step col (λ c, str_strip (astype_str (fillna (Text []) c))))|].
  case_bool_decide;
    [by apply (assign_step col (λ c, fillna (Num 0) (to_numeric parse_number c)))|].
  by apply (keep_step df col (λ c, c)).
Qed.

(** *** load_structure_data *)

Lemma load_structure_data_eq sheet :
  load_structure_data lower_char parse_number sheet =
  if df_empty sheet then None
  else if structure_insufficient
            (available structure_text_cols (structure_columns lower_char sheet))
  then None
  else if negb (bool_decide (NoDup (structure_columns lower_char sheet))) then None
  else Some (foldl (structure_clean_col parse_number)
                   (set_columns (structure_columns lower_char sheet)
                                (clean_dataframe_columns sheet))
                   (structure_columns lower_char sheet)).
Proof. reflexivity. Qed.

Lemma load_structure_data_inv sheet df :
  load_structure_data lower_char parse_number sheet = Some df →
  df_empty sheet = false
  ∧ (3 ≤ length (available structure_text_cols (structure_columns lower_char sheet)))%nat
  ∧ NoDup (structure_columns lower_char sheet)
  ∧ columns df = structure_columns lower_char sheet
  ∧ ∃ g : gmap (list N) cell → gmap (list N) cell,
      rows df = g <$> rows (set_columns (structure_columns lower_char sheet)
                                        (clean_dataframe_columns sheet))
      ∧ ∀ r c, get (g r) c =
               if bool_decide (c ∈ structure_columns lower_char sheet)
               then structure_cell parse_number c (get r c) else get r c.
Proof.
  rewrite load_structure_data_eq.
  destruct (df_empty sheet); [done|].
  destruct (structure_insufficient _) eqn:E1; [done|].
  case_bool_decide as Hnd; [|done]. cbn [negb]. intros [= <-].
  split; [done|]. split.
  { unfold structure_insufficient in E1. apply Nat.ltb_ge in E1. lia. }
  split; [done|].
  destruct (fold_columns_spec (structure_clean_col parse_number)
              (structure_cell parse_number) structure_clean_col_step
              (structure_columns lower_char sheet)
              (set_columns (structure_columns lower_char sheet)
                           (clean_dataframe_columns sheet)) Hnd) as (H1 & g & H2 & H3).
  { by intros c Hc. }
  split; [exact H1|]. exists g. done.
Qed.


(** The value in a position of a sheet row, after the two replacements of
    the header list. *)
Lemma renamed_sheet_value (names : list (list N)) sheet i j c n r :
  NoDup names → length names = length (columns sheet) →
  columns sheet !! i = Some c → names !! i = Some n → rows sheet !! j = Some r →
  ∃ r', rows (set_columns names (clean_dataframe_columns sheet)) !! j = Some r'
        ∧ get r' n = get r c.
Proof.
  intros Hnd Hlen Hc Hn Hr.
  destruct (lookup_lt_is_Some_2 (clean_column_names (columns sheet)) i) as [n1 Hn1].
  { rewrite length_clean_column_names. by eapply lookup_lt_Some. }
  destruct (get_set_columns (clean_column_names (columns sheet)) sheet i j n1 c r)
    as (r1 & Hr1 & Hget1); try done; [apply NoDup_clean_column_names|].
  fold (clean_dataframe_columns sheet) in Hr1.
  destruct (get_set_columns names (clean_dataframe_columns sheet) i j n n1 r1)
    as (r' & H1 & H2); try done.
  exists r'. split; [done|]. congruence.
Qed.

Lemma rows_relabel names sheet :
  rows (set_columns names (clean_dataframe_columns sheet)) = relabel names sheet <$> rows sheet.
Proof.
  unfold set_columns, clean_dataframe_columns, set_columns. cbn [rows columns].
  by rewrite <- list_fmap_compose.
Qed.

Lemma get_relabel (names : list (list N)) sheet i c n r :
  NoDup names → length names = length (columns sheet) →
  columns sheet !! i = Some c → names !! i = Some n →
  get (relabel names sheet r) n = get r c.
Proof.
  intros Hnd Hlen Hc Hn. unfold relabel.
  destruct (lookup_lt_is_Some_2 (clean_column_names (columns sheet)) i) as [n1 Hn1].
  { rewrite length_clean_column_names. by eapply lookup_lt_Some. }
  rewrite (get_zip_lookup names _ i n
             (get (list_to_map (zip (clean_column_names (columns sheet))
                                    ((λ c, get r c) <$> columns sheet))) n1)); [|done|done|].
  - apply get_zip_lookup with i; [apply NoDup_clean_column_names|done|].
    by rewrite list_lookup_fmap, Hc.
  - by rewrite list_lookup_fmap, Hn1.
Qed.


Lemma numeric_cell c : ∃ z, fillna (Num 0) (to_numeric parse_number c) = Num z.
Proof.
  destruct c as [s|z|]; simpl; [|eauto..].
  destruct (parse_number s); simpl; eauto.
Qed.

Lemma text_not_numeric c : c ∈ structure_numeric_cols → c ∉ structure_text_cols.
Proof.
  unfold structure_text_cols, structure_numeric_cols.
  rewrite !elem_of_cons, !elem_of_nil. intuition (subst; discriminate).
Qed.

(** X5 (load_structure_data).  In a loaded structure table every value of
    an identifying column is a text without leading or trailing whitespace
    (a missing value has become the empty text), and every value of a volume
    column is a number (what does not parse has become 0). *)
Theorem load_structure_data_cells sheet df r c :
  load_structure_data lower_char parse_number sheet = Some df →
  r ∈ rows df → c ∈ columns df →
  (c ∈ structure_text_cols → ∃ s, get r c = Text s ∧ strip s = s)
  ∧ (c ∈ structure_numeric_cols → ∃ z, get r c = Num z).
Proof.
  intros (_ & _ & Hnd & Hcols & g & Hrows & Hg)%load_structure_data_inv Hr Hc.
  rewrite Hrows in Hr. apply list_elem_of_fmap in Hr as (r0 & -> & _).
  rewrite Hg, bool_decide_eq_true_2 by (by rewrite <- Hcols).
  unfold structure_cell. split; intros H.
  - rewrite bool_decide_eq_true_2 by done. rewrite clean_cell_normalized.
    eexists. split; [done|apply normalized_stripped].
  - rewrite bool_decide_eq_false_2 by (by apply text_not_numeric).
    rewrite bool_decide_eq_true_2 by done. apply numeric_cell.
Qed.

End LoadedTables.

(** ** The loaders: when a load fails, what a documentation load keeps *)

Lemma fmap_NoDup_or_collision {A B} `{EqDecision B} (f : A → B) (l : list A) :
  NoDup l → NoDup (f <$> l) ∨ ∃ x y, x ∈ l ∧ y ∈ l ∧ x ≠ y ∧ f x = f y.
Proof.
  induction 1 as [|a l Ha Hnd IH]; [left; constructor|].
  destruct IH as [IH|(x & y & Hx & Hy & Hne & E)].
  - destruct (decide (f a ∈ f <$> l)) as [Hin|Hn].
    + right. apply list_elem_of_fmap in Hin as (y & E & Hy).
      exists a, y. split; [constructor|]. split; [by constructor|].
      split; [by intros ->|done].
    + left. rewrite fmap_cons. by constructor.
  - right. exists x, y. split; [by constructor|]. split; [by constructor|done].
Qed.

Lemma rename_columns_NoDup (m : gmap (list N) (list N)) (hs : list (list N)) :
  NoDup hs →
  (∀ h1 h2 F, m !! h1 = Some F → m !! h2 = Some F → h1 = h2) →
  (∀ h F, m !! h = Some F → h ∈ hs) →
  NoDup (rename_columns m hs) ↔ ¬ ∃ h h', h ∈ hs ∧ m !! h = None ∧ m !! h' = Some h.
Proof.
  intros Hnd Hinj Hdom. unfold rename_columns. split.
  - intros Hnd' (h & h' & Hh & Hnone & Hsome).
    pose proof (Hdom _ _ Hsome) as Hh'.
    apply list_elem_of_lookup_1 in Hh as [i Hi].
    apply list_elem_of_lookup_1 in Hh' as [i' Hi'].
    assert (i = i') as ->.
    { apply (NoDup_lookup _ i i' h Hnd').
      - by rewrite list_lookup_fmap, Hi; simpl; rewrite Hnone.
      - by rewrite list_lookup_fmap, Hi'; simpl; rewrite Hsome. }
    congruence.
  - intros Hclash.
    destruct (fmap_NoDup_or_collision (λ c, default c (m !! c)) hs Hnd)
      as [H|(x & y & Hx & Hy & Hne & E)]; [done|].
    exfalso. simpl in E.
    destruct (m !! x) as [a|] eqn:Ex, (m !! y) as [b|] eqn:Ey; simpl in E.
    + apply Hne. rewrite E in Ex. by eapply Hinj.
    + rewrite E in Ex. apply Hclash. exists y, x. done.
    + rewrite <- E in Ey. apply Hclash. exists x, y. done.
    + done.
Qed.

Section LoadFailure.

Variable lower_char : N → N.
Variable parse_number : list N → option Z.

Lemma structure_columns_NoDup sheet :
  NoDup (structure_columns lower_char sheet) ↔ ¬ structure_label_clash lower_char sheet.
Proof.
  unfold structure_columns, structure_label_clash.
  apply rename_columns_NoDup.
  - apply NoDup_clean_column_names.
  - rewrite structure_column_mapping_classify. intros h1 h2 F. apply classify_injective.
  - rewrite structure_column_mapping_classify. intros h F. apply classify_dom.
Qed.

(** X6 (load_structure_data).  The structure load returns no table in
    exactly three cases: the sheet is empty; fewer than three of the five
    identifying fields are recognized; or a header that stays unmapped is
    itself the canonical name given to another header, so that the renaming
    yields one label twice and the cleaning loop raises. *)
Theorem load_structure_data_fails_exactly sheet :
  load_structure_data lower_char parse_number sheet = None ↔
  df_empty sheet = true
  ∨ structure_below_threshold lower_char sheet
  ∨ structure_label_clash lower_char sheet.
Proof.
  rewrite load_structure_data_eq. unfold structure_below_threshold, structure_insufficient.
  destruct (df_empty sheet); [naive_solver|].
  destruct (Nat.ltb_spec
              (length (available structure_text_cols (structure_columns lower_char sheet))) 3)
    as [Hlt|Hge]; [naive_solver|].
  case_bool_decide as Hnd; cbn [negb].
  - split; [done|]. intros [?|[?|Hc]]; [done|lia|].
    by apply structure_columns_NoDup in Hnd.
  - split; [|done]. intros _. right. right.
    destruct (fmap_NoDup_or_collision
                (λ c, default c (structure_column_mapping lower_char
                                   (clean_column_names (columns sheet)) !! c))
                (clean_column_names (columns sheet))
                (NoDup_clean_column_names (columns sheet)))
      as [H|(x & y & Hx & Hy & Hne & E)]; [done|].
    unfold structure_label_clash. simpl in E.
    set (m := structure_column_mapping lower_char (clean_column_names (columns sheet))) in *.
    destruct (m !! x) as [a|] eqn:Ex, (m !! y) as [b|] eqn:Ey; simpl in E.
    + exfalso. apply Hne. rewrite E in Ex. unfold m in Ex, Ey.
      rewrite structure_column_mapping_classify in Ex, Ey. by eapply classify_injective.
    + rewrite E in Ex. exists y, x. done.
    + rewrite <- E in Ey. exists x, y. done.
    + done.
Qed.

End LoadFailure.

(** The renaming of [ex_structure_clash] yields the label of the project
    twice: the load returns no table although four identifying fields are
    recognized. *)
Lemma load_structure_data_clash :
  load_structure_data lower_latin_cyrillic parse_unsigned ex_structure_clash = None
  ∧ df_empty ex_structure_clash = false
  ∧ length (available structure_text_cols
              (structure_columns lower_latin_cyrillic ex_structure_clash)) = 4%nat.
Proof. split; [vm_compute; reflexivity|]. split; vm_compute; reflexivity. Qed.

(** *** load_id_data *)

Lemma NoDup_id_needed_cols : NoDup id_needed_cols.
Proof. unfold id_needed_cols. solve_NoDup. Qed.

Lemma NoDup_available needed cols : NoDup needed → NoDup (available needed cols).
Proof.
  unfold available. induction 1 as [|c needed Hc Hnd IH]; simpl; [constructor|].
  case_bool_decide; [|done]. constructor; [|done].
  rewrite elem_of_filter. tauto.
Qed.

Lemma get_select_row (cols : list (list N)) (r : gmap (list N) cell) c :
  get (list_to_map ((λ c, (c, get r c)) <$> cols)) c
  = if bool_decide (c ∈ cols) then get r c else NaN.
Proof.
  unfold get at 1. case_bool_decide as Hc.
  - rewrite (elem_of_list_to_map_1' _ c (get r c)); [done| |].
    + by intros y (c' & [= -> ->] & _)%list_elem_of_fmap.
    + apply list_elem_of_fmap. eauto.
  - rewrite not_elem_of_list_to_map_1; [done|].
    rewrite <- list_fmap_compose. by intros (c' & -> & H)%list_elem_of_fmap.
Qed.

Lemma id_text_needed c : c ∈ id_text_cols → c ∈ id_needed_cols.
Proof.
  unfold id_text_cols, id_needed_cols. rewrite !elem_of_cons, !elem_of_nil. tauto.
Qed.

Lemma volume_not_text : DocumentedVolume ∉ id_text_cols.
Proof.
  unfold id_text_cols. rewrite !elem_of_cons, !elem_of_nil. intuition discriminate.
Qed.

Lemma text_cell_kept (v : cell) :
  cell_ne (str_strip (str_strip (astype_str (fillna (Text []) v)))) (Text []) = true
  ↔ normalized v ≠ [].
Proof.
  rewrite clean_cell_normalized. simpl. rewrite normalized_stripped, cell_ne_text.
  rewrite negb_true_iff, bool_decide_eq_false. done.
Qed.

Lemma id_mask_true df r :
  id_mask df r = true ↔
  ∀ col, col ∈ id_text_cols → col ∈ columns df →
         cell_ne (str_strip (get r col)) (Text []) = true.
Proof.
  unfold id_mask. rewrite forallb_elem. split.
  - intros H col Hc Hin. specialize (H col Hc).
    by rewrite (proj2 (has_col_elem df col) Hin) in H.
  - intros H col Hc. destruct (has_col df col) eqn:E; [|done].
    apply H; [done|]. by apply has_col_elem.
Qed.

Section LoadedDocs.

Variable lower_char : N → N.
Variable parse_number : list N → option Z.

Lemma load_id_data_eq sheet :
  load_id_data lower_char parse_number sheet =
  if df_empty sheet then None
  else if id_insufficient (id_available lower_char sheet) then None
  else
    let df := filter_rows (id_mask (id_cleaned lower_char parse_number sheet))
                          (id_cleaned lower_char parse_number sheet) in
    if (0 <? length (rows df))%nat && negb (forallb (has_col df) id_needed_cols)
    then None
    else Some df.
Proof. reflexivity. Qed.

Lemma length_id_columns sheet :
  length (id_columns lower_char sheet) = length (columns sheet).
Proof.
  unfold id_columns, rename_columns.
  by rewrite length_clean_column_names, length_fmap, length_clean_column_names.
Qed.

Lemma NoDup_id_columns sheet : NoDup (id_columns lower_char sheet).
Proof. apply NoDup_clean_column_names. Qed.

(** The row the load makes of a sheet row, before the filter, and the rows
    the filter keeps. *)
Lemma id_cleaned_spec sheet :
  columns (id_cleaned lower_char parse_number sheet) = id_available lower_char sheet
  ∧ ∃ T : gmap (list N) cell → gmap (list N) cell,
      rows (id_cleaned lower_char parse_number sheet) = T <$> rows sheet
      ∧ (∀ r i c n, columns sheet !! i = Some c →
           id_columns lower_char sheet !! i = Some n → n ∈ id_needed_cols →
           get (T r) n = id_cell parse_number n (get r c))
      ∧ (∀ r, id_mask (id_cleaned lower_char parse_number sheet) (T r) = true ↔
              ∀ i c n, columns sheet !! i = Some c →
                id_columns lower_char sheet !! i = Some n → n ∈ id_text_cols →
                normalized (get r c) ≠ []).
Proof.
  assert (columns (id_cleaned lower_char parse_number sheet) = id_available lower_char sheet
          ∧ ∃ T : gmap (list N) cell → gmap (list N) cell,
              rows (id_cleaned lower_char parse_number sheet) = T <$> rows sheet
              ∧ (∀ r i c n, columns sheet !! i = Some c →
                   id_columns lower_char sheet !! i = Some n → n ∈ id_needed_cols →
                   get (T r) n = id_cell parse_number n (get r c))) as (Hcols & T & Hrows & HT).
  { unfold id_cleaned.
    destruct (fold_columns_spec (id_clean_col parse_number) (id_cell parse_number)
                (id_clean_col_step parse_number) (id_available lower_char sheet)
                (select (id_available lower_char sheet)
                   (set_columns (id_columns lower_char sheet) (clean_dataframe_columns sheet))))
      as (H1 & g & H2 & H3).
    { apply NoDup_available, NoDup_id_needed_cols. }
    { by intros c Hc. }
    split; [exact H1|].
    exists (λ r, g (list_to_map ((λ c, (c, get (relabel (id_columns lower_char sheet) sheet r) c))
                                   <$> id_available lower_char sheet))).
    split.
    - rewrite H2. unfold select. cbn [rows]. rewrite rows_relabel.
      by rewrite <- !list_fmap_compose.
    - intros r i c n Hc Hn Hneed.
      assert (n ∈ id_available lower_char sheet) as Hav.
      { apply elem_of_available. split; [done|]. by eapply list_elem_of_lookup_2. }
      rewrite H3, bool_decide_eq_true_2 by done. f_equal.
      rewrite get_select_row, bool_decide_eq_true_2 by done.
      apply get_relabel with i; try done; [apply NoDup_id_columns|apply length_id_columns]. }
  split; [done|]. exists T. split; [done|]. split; [done|].
  intros r. rewrite id_mask_true, Hcols. split.
  - intros H i c n Hc Hn Htext.
    assert (n ∈ id_available lower_char sheet) as Hav.
    { apply elem_of_available. split; [by apply id_text_needed|].
      by eapply list_elem_of_lookup_2. }
    specialize (H n Htext Hav).
    rewrite (HT r i c n Hc Hn) in H by (by apply id_text_needed).
    unfold id_cell in H. rewrite bool_decide_eq_true_2 in H by done.
    by apply text_cell_kept.
  - intros H n Htext [_ Hin]%elem_of_available.
    apply list_elem_of_lookup_1 in Hin as [i Hn].
    destruct (lookup_lt_is_Some_2 (columns sheet) i) as [c Hc].
    { rewrite <- length_id_columns. by eapply lookup_lt_Some. }
    rewrite (HT r i c n Hc Hn) by (by apply id_text_needed).
    unfold id_cell. rewrite bool_decide_eq_true_2 by done.
    apply text_cell_kept. by eapply H.
Qed.

Lemma load_id_data_inv sheet df :
  load_id_data lower_char parse_number sheet = Some df →
  df = filter_rows (id_mask (id_cleaned lower_char parse_number sheet))
                   (id_cleaned lower_char parse_number sheet)
  ∧ PackageCode ∈ id_available lower_char sheet
  ∧ DocumentedVolume ∈ id_available lower_char sheet
  ∧ (rows df ≠ [] → id_available lower_char sheet = id_needed_cols).
Proof.
  rewrite load_id_data_eq. destruct (df_empty sheet); [done|].
  destruct (id_insufficient _) eqn:E; [done|]. cbn zeta.
  destruct (_ && _) eqn:E'; [done|]. intros [= <-]. split; [done|].
  assert (¬ (PackageCode ∉ id_available lower_char sheet
             ∨ DocumentedVolume ∉ id_available lower_char sheet
             ∨ (length (id_available lower_char sheet) < 2)%nat)) as Hn.
  { rewrite <- id_insufficient_true. congruence. }
  split; [|split].
  - destruct (decide (PackageCode ∈ id_available lower_char sheet)); [done|tauto].
  - destruct (decide (DocumentedVolume ∈ id_available lower_char sheet)); [done|tauto].
  - intros Hrows. apply andb_false_iff in E' as [E'|E'].
    + apply Nat.ltb_ge in E'. destruct (rows (filter_rows _ _)); [done|simpl in E'; lia].
    + apply negb_false_iff in E'. rewrite forallb_elem in E'.
      apply available_all. intros c Hc. specialize (E' c Hc).
      apply has_col_elem in E'. cbn [filter_rows columns] in E'.
      destruct (id_cleaned_spec sheet) as [Hcols _]. rewrite Hcols in E'.
      by apply elem_of_available in E' as [_ ?].
Qed.

(** X7 (load_id_data).  A loaded documentation table has, in this order,
    those of the four columns PackageCode, StructuralElement, WorkType and
    DocumentedVolume that the sheet provides, the first and the last always
    among them; as soon as it has a row it has all four, and no sheet column
    beyond them. *)
Theorem load_id_data_columns sheet df :
  load_id_data lower_char parse_number sheet = Some df →
  columns df = available id_needed_cols (id_columns lower_char sheet)
  ∧ PackageCode ∈ columns df
  ∧ DocumentedVolume ∈ columns df
  ∧ (rows df ≠ [] → columns df = id_needed_cols).
Proof.
  intros (-> & H1 & H2 & H3)%load_id_data_inv. cbn [filter_rows columns rows] in *.
  destruct (id_cleaned_spec sheet) as [-> _]. done.
Qed.


(** A row of a loaded documentation table. *)
Lemma loaded_row sheet df r :
  load_id_data lower_char parse_number sheet = Some df → r ∈ rows df →
  (∀ c, c ∈ id_text_cols → ∃ s, get r c = Text s ∧ s ≠ [] ∧ strip s = s)
  ∧ ∃ z, get r DocumentedVolume = Num z.
Proof.
  intros Hload Hr.
  destruct (load_id_data_inv _ _ Hload) as (-> & _ & _ & Hall).
  assert (id_available lower_char sheet = id_needed_cols) as Hav.
  { apply Hall. intros E. rewrite E in Hr. by apply elem_of_nil in Hr. }
  clear Hall Hload. cbn [filter_rows rows] in Hr.
  apply elem_of_filter in Hr as [Hr Hmask].
  destruct (id_cleaned_spec sheet) as (Hcols & T & Hrows & HT & _).
  rewrite Hrows in Hr. apply list_elem_of_fmap in Hr as (r0 & -> & _).
  rewrite id_mask_true, Hcols, Hav in Hmask.
  assert (∀ n, n ∈ id_needed_cols →
            ∃ v, get (T r0) n = id_cell parse_number n v) as Hcell.
  { intros n Hn.
    assert (n ∈ id_columns lower_char sheet) as Hin.
    { rewrite <- Hav in Hn. by apply elem_of_available in Hn as [_ ?]. }
    apply list_elem_of_lookup_1 in Hin as [i Hi].
    destruct (lookup_lt_is_Some_2 (columns sheet) i) as [c Hc].
    { rewrite <- length_id_columns. by eapply lookup_lt_Some. }
    exists (get r0 c). by eapply HT. }
  split.
  - intros c Hc. destruct (Hcell c (id_text_needed c Hc)) as [v Hv].
    specialize (Hmask c Hc (id_text_needed c Hc)). rewrite Hv in Hmask |- *.
    unfold id_cell in *. rewrite bool_decide_eq_true_2 in Hmask |- * by done.
    apply text_cell_kept in Hmask. rewrite clean_cell_normalized.
    exists (normalized v). split; [done|]. split; [done|apply normalized_stripped].
  - destruct (Hcell DocumentedVolume) as [v Hv].
    { unfold id_needed_cols. rewrite !elem_of_cons. auto. }
    rewrite Hv. unfold id_cell.
    rewrite bool_decide_eq_false_2 by apply volume_not_text.
    rewrite bool_decide_eq_true_2 by done. apply numeric_cell.
Qed.

Lemma loaded_row_complete sheet df r :
  load_id_data lower_char parse_number sheet = Some df → r ∈ rows df →
  complete (id_key3 r) = true.
Proof.
  intros Hload Hr. destruct (loaded_row _ _ _ Hload Hr) as [Htext _].
  assert (∀ c, c ∈ id_text_cols → normalized (get r c) ≠ []) as H.
  { intros c Hc. destruct (Htext c Hc) as (s & -> & Hs & Hstrip).
    unfold normalized. simpl. by rewrite Hstrip. }
  unfold complete, id_key3. cbn [fst snd].
  rewrite !andb_true_iff, !negb_true_iff, !bool_decide_eq_false.
  unfold id_text_cols in H.
  repeat split; apply H; rewrite !elem_of_cons; auto.
Qed.

(** X9 (load_id_data).  Every row of a loaded documentation table is
    complete: its three text fields are non-empty texts without leading or
    trailing whitespace, and its volume is a number. *)
Theorem load_id_data_rows_complete sheet df r :
  load_id_data lower_char parse_number sheet = Some df → r ∈ rows df →
  (∀ c, c ∈ id_text_cols → ∃ s, get r c = Text s ∧ s ≠ [] ∧ strip s = s)
  ∧ (∃ z, get r DocumentedVolume = Num z)
  ∧ complete (id_key3 r) = true.
Proof.
  intros Hload Hr. destruct (loaded_row _ _ _ Hload Hr) as [H1 H2].
  split; [done|]. split; [done|]. by eapply loaded_row_complete.
Qed.

(** X10 (load_id_data, optimize_matching).  On a table that load_id_data
    returned, the empty-key filter of the matcher (lines 513-517) removes
    nothing: the rows matching a structure row are all the rows with its
    composite key. *)
Theorem loaded_rows_pass_key_filter sheet id_df r :
  load_id_data lower_char parse_number sheet = Some id_df →
  matching_rows id_df r
  = List.filter (λ d, bool_decide (joined (id_key3 d) = joined (structure_key3 r)))
                (rows id_df).
Proof.
  intros Hload. unfold matching_rows. apply filter_ext_elem.
  intros d Hd. by rewrite (loaded_row_complete _ _ _ Hload Hd).
Qed.

Lemma id_insufficient_iff sheet :
  id_insufficient (id_available lower_char sheet) = true ↔ id_below_threshold lower_char sheet.
Proof.
  split; [|apply id_below_threshold_insufficient].
  unfold id_below_threshold, id_available.
  rewrite id_insufficient_true, !elem_of_available. unfold id_needed_cols.
  intros [H|[H|H]]; [left|right; left|right; right; done];
    intros Hin; apply H; (split; [|done]); rewrite !elem_of_cons; auto.
Qed.

(** X11 (load_id_data).  The documentation load returns no table in exactly
    three cases: the sheet is empty; it is below the threshold of line 268;
    or a row has all its recognized text fields non-blank while
    StructuralElement or WorkType is not recognized.  In the last case the
    log of the first loaded rows (line 353) reads a column that is not
    there, and the handler of line 357 returns no table. *)
Theorem load_id_data_fails_exactly sheet :
  load_id_data lower_char parse_number sheet = None ↔
  df_empty sheet = true
  ∨ id_below_threshold lower_char sheet
  ∨ ((∃ r, r ∈ rows sheet
           ∧ ∀ i c n, columns sheet !! i = Some c →
               id_columns lower_char sheet !! i = Some n → n ∈ id_text_cols →
               normalized (get r c) ≠ [])
     ∧ ∃ c, c ∈ id_needed_cols ∧ c ∉ id_columns lower_char sheet).
Proof.
  rewrite load_id_data_eq. destruct (df_empty sheet); [naive_solver|].
  destruct (id_insufficient _) eqn:E.
  { apply id_insufficient_iff in E. naive_solver. }
  assert (¬ id_below_threshold lower_char sheet) as Hnb.
  { rewrite <- id_insufficient_iff. congruence. }
  cbn zeta. destruct (id_cleaned_spec sheet) as (Hcols & T & Hrows & _ & Hkeep).
  cbn [filter_rows rows columns].
  assert ((0 <? length (List.filter (id_mask (id_cleaned lower_char parse_number sheet))
                          (rows (id_cleaned lower_char parse_number sheet))))%nat = true
          ↔ ∃ r, r ∈ rows sheet
                 ∧ ∀ i c n, columns sheet !! i = Some c →
                     id_columns lower_char sheet !! i = Some n → n ∈ id_text_cols →
                     normalized (get r c) ≠ []) as Hsome.
  { rewrite Hrows, filter_fmap, length_fmap, Nat.ltb_lt. split.
    - destruct (List.filter _ (rows sheet)) as [|r l] eqn:Ef; [simpl; lia|]. intros _.
      assert (r ∈ List.filter
                    (λ x, id_mask (id_cleaned lower_char parse_number sheet) (T x))
                    (rows sheet)) as Hr by (rewrite Ef; constructor).
      apply elem_of_filter in Hr as [Hr Hm]. exists r. split; [done|]. by apply Hkeep.
    - intros (r & Hr & Hk).
      assert (r ∈ List.filter
                    (λ x, id_mask (id_cleaned lower_char parse_number sheet) (T x))
                    (rows sheet)) as Hin.
      { apply elem_of_filter. split; [done|]. by apply Hkeep. }
      destruct (List.filter _ (rows sheet)); [by apply elem_of_nil in Hin|simpl; lia]. }
  assert (forallb (has_col (filter_rows (id_mask (id_cleaned lower_char parse_number sheet))
                              (id_cleaned lower_char parse_number sheet))) id_needed_cols
          = false
          ↔ ∃ c, c ∈ id_needed_cols ∧ c ∉ id_columns lower_char sheet) as Hmiss.
  { rewrite <- not_true_iff_false, forallb_elem. split.
    - intros H. destruct (decide (Forall (λ c, c ∈ id_columns lower_char sheet) id_needed_cols))
        as [HF|HF].
      + exfalso. apply H. intros c Hc. apply has_col_elem. cbn [filter_rows columns].
        rewrite Hcols. apply elem_of_available. split; [done|].
        rewrite Forall_forall in HF. auto.
      + apply not_Forall_Exists in HF; [|apply _]. by apply Exists_exists in HF.
    - intros (c & Hc & Hn) H. apply Hn. specialize (H c Hc).
      apply has_col_elem in H. cbn [filter_rows columns] in H. rewrite Hcols in H.
      by apply elem_of_available in H as [_ ?]. }
  destruct (0 <? _)%nat eqn:E1; destruct (forallb _ id_needed_cols) eqn:E2;
    cbn [andb negb].
  - split; [done|]. intros [?|[?|[_ H]]]; [done|done|].
    apply Hmiss in H. congruence.
  - split; [|done]. intros _. right. right. split; [by apply Hsome|by apply Hmiss].
  - split; [done|]. intros [?|[?|[H _]]]; [done|done|].
    apply Hsome in H. congruence.
  - split; [done|]. intros [?|[?|[H _]]]; [done|done|].
    apply Hsome in H. congruence.
Qed.

End LoadedDocs.

(** *** The loaders on example sheets *)

(** A fact [p] computed on the table a load returns. *)
Lemma loaded_fact {A} (p : DataFrame → A) (o : option DataFrame) (a : A) df :
  p <$> o = Some a → o = Some df → p df = a.
Proof. intros H ->. by injection H. Qed.

Lemma loaded_some {A} (o : option A) :
  match o with Some _ => true | None => false end = true → ∃ x, o = Some x.
Proof. destruct o; [eauto|discriminate]. Qed.

Lemma nonempty_rows df n : length (rows df) = S n → rows df ≠ [].
Proof. by destruct (rows df). Qed.


Lemma load_structure_data_cells_witness :
  ∃ df r s,
    load_structure_data lower_latin_cyrillic parse_unsigned ex_structure_raw = Some df
    ∧ rows df !! 0%nat = Some r
    ∧ get r Project = Text s ∧ strip s = s.
Proof.
  destruct (loaded_some (load_structure_data lower_latin_cyrillic parse_unsigned ex_structure_raw))
    as [df E]; [vm_compute; reflexivity|].
  assert (length (rows df) = 2%nat) as Hlen.
  { refine (loaded_fact (λ d, length (rows d)) _ _ _ _ E). vm_compute. reflexivity. }
  assert (bool_decide (Project ∈ columns df) = true) as Hc.
  { refine (loaded_fact (λ d, bool_decide (Project ∈ columns d)) _ _ _ _ E). vm_compute. reflexivity. }
  apply bool_decide_eq_true_1 in Hc.
  destruct (lookup_lt_is_Some_2 (rows df) 0) as [r Er]; [rewrite Hlen; lia|].
  assert (Project ∈ structure_text_cols) as Ht by constructor.
  destruct (load_structure_data_cells _ _ _ _ r Project E
              (list_elem_of_lookup_2 _ _ _ Er) Hc) as [H _].
  destruct (H Ht) as (s & H1 & H2).
  exists df, r, s. split; [exact E|]. split; [exact Er|]. split; [exact H1|exact H2].
Defined.

Lemma load_id_data_columns_witness :
  ∃ df, load_id_data lower_latin_cyrillic parse_unsigned ex_id_raw = Some df
        ∧ columns df = id_needed_cols.
Proof.
  destruct (loaded_some (load_id_data lower_latin_cyrillic parse_unsigned ex_id_raw))
    as [df E]; [vm_compute; reflexivity|].
  assert (length (rows df) = 2%nat) as Hlen.
  { refine (loaded_fact (λ d, length (rows d)) _ _ _ _ E). vm_compute. reflexivity. }
  exists df. split; [exact E|].
  destruct (load_id_data_columns _ _ _ _ E) as (_ & _ & _ & H). apply H.
  by eapply nonempty_rows.
Defined.


Lemma load_id_data_rows_complete_witness :
  ∃ df r, load_id_data lower_latin_cyrillic parse_unsigned ex_id_raw = Some df
          ∧ rows df !! 1%nat = Some r
          ∧ complete (id_key3 r) = true
          ∧ ∃ z, get r DocumentedVolume = Num z.
Proof.
  destruct (loaded_some (load_id_data lower_latin_cyrillic parse_unsigned ex_id_raw))
    as [df E]; [vm_compute; reflexivity|].
  assert (length (rows df) = 2%nat) as Hlen.
  { refine (loaded_fact (λ d, length (rows d)) _ _ _ _ E). vm_compute. reflexivity. }
  destruct (lookup_lt_is_Some_2 (rows df) 1) as [r Er]; [rewrite Hlen; lia|].
  destruct (load_id_data_rows_complete _ _ _ _ r E (list_elem_of_lookup_2 _ _ _ Er))
    as (_ & H2 & H3).
  exists df, r. split; [exact E|]. split; [exact Er|]. split; [exact H3|exact H2].
Defined.

Lemma loaded_rows_pass_key_filter_witness :
  ∃ df, load_id_data lower_latin_cyrillic parse_unsigned ex_id_raw = Some df
        ∧ matching_rows df ex_row_A
          = List.filter (λ d, bool_decide (joined (id_key3 d) = joined (structure_key3 ex_row_A)))
                        (rows df).
Proof.
  destruct (loaded_some (load_id_data lower_latin_cyrillic parse_unsigned ex_id_raw))
    as [df E]; [vm_compute; reflexivity|].
  exists df. split; [exact E|].
  exact (loaded_rows_pass_key_filter _ _ _ _ ex_row_A E).
Defined.

(** ** The aggregator: totals and order *)







(** The order of the group keys is total. *)
Lemma str_leb_total s t : str_leb s t = true ∨ str_leb t s = true.
Proof.
  revert t. induction s as [|a s IH]; intros [|b t]; simpl; auto.
  destruct (N.compare_spec a b) as [->|Hlt|Hgt].
  - rewrite N.ltb_irrefl, N.eqb_refl. simpl. apply IH.
  - left. by rewrite (proj2 (N.ltb_lt a b) Hlt).
  - right. by rewrite (proj2 (N.ltb_lt b a) Hgt).
Qed.

Lemma cell_leb_total a b : cell_leb a b = true ∨ cell_leb b a = true.
Proof.
  destruct a as [s|x|], b as [t|y|]; simpl; auto.
  - apply str_leb_total.
  - destruct (Z.leb_spec x y); [auto|right]. apply Z.leb_le. lia.
Qed.

Lemma key_leb_total k1 k2 : key_leb k1 k2 = true ∨ key_leb k2 k1 = true.
Proof.
  revert k2. induction k1 as [|a k1 IH]; intros [|b k2]; simpl; auto.
  destruct (decide (a = b)) as [->|Hne].
  - rewrite decide_True by done. apply IH.
  - rewrite decide_False by congruence. apply cell_leb_total.
Qed.

Lemma key_le_total : Total key_le.
Proof.
  intros k1 k2. unfold key_le.
  destruct (key_leb_total k1 k2) as [H|H]; rewrite H; [by left|by right].
Qed.

Lemma str_leb_antisym s t : str_leb s t = true → str_leb t s = true → s = t.
Proof.
  revert t. induction s as [|a s IH]; intros [|b t]; simpl; try done.
  destruct (N.compare_spec a b) as [->|Hlt|Hgt].
  - rewrite N.ltb_irrefl, N.eqb_refl. simpl. intros H1 H2. f_equal. by apply IH.
  - rewrite (proj2 (N.ltb_ge b a)), (proj2 (N.eqb_neq b a)) by lia. done.
  - rewrite (proj2 (N.ltb_ge a b)), (proj2 (N.eqb_neq a b)) by lia. done.
Qed.

Lemma str_leb_trans s t w : str_leb s t = true → str_leb t w = true → str_leb s w = true.
Proof.
  revert t w. induction s as [|a s IH]; intros [|b t] [|c w]; simpl; try done.
  rewrite !orb_true_iff, !andb_true_iff, !N.ltb_lt, !N.eqb_eq.
  intros [H1|[-> H1]] [H2|[-> H2]].
  - left. lia.
  - by left.
  - by left.
  - right. split; [done|]. by eapply IH.
Qed.

Lemma cell_leb_antisym a b : cell_leb a b = true → cell_leb b a = true → a = b.
Proof.
  destruct a as [s|x|], b as [t|y|]; simpl; try done.
  - intros H1 H2. f_equal. by apply str_leb_antisym.
  - intros H1%Z.leb_le H2%Z.leb_le. f_equal. lia.
Qed.

Lemma cell_leb_trans a b c : cell_leb a b = true → cell_leb b c = true → cell_leb a c = true.
Proof.
  destruct a as [s|x|], b as [t|y|], c as [w|z|]; simpl; try done.
  - apply str_leb_trans.
  - intros H1%Z.leb_le H2%Z.leb_le. apply Z.leb_le. lia.
Qed.


Lemma key_leb_trans k1 k2 k3 :
  key_leb k1 k2 = true → key_leb k2 k3 = true → key_leb k1 k3 = true.
Proof.
  revert k2 k3. induction k1 as [|a k1 IH]; intros [|b k2] [|c k3]; simpl; try done.
  destruct (decide (a = b)) as [->|Hab].
  - destruct (decide (b = c)) as [->|Hbc]; [apply IH|done].
  - destruct (decide (b = c)) as [->|Hbc].
    + rewrite decide_False by done. done.
    + intros H1 H2. destruct (decide (a = c)) as [->|Hac].
      * exfalso. apply Hab. by apply cell_leb_antisym.
      * by eapply cell_leb_trans.
Qed.

Lemma key_le_trans : Transitive key_le.
Proof.
  intros k1 k2 k3. unfold key_le. intros H1%Is_true_true H2%Is_true_true.
  apply Is_true_true. by eapply key_leb_trans.
Qed.


Lemma group_keys_sorted by_ df : StronglySorted key_le (group_keys by_ df).
Proof.
  unfold group_keys.
  apply (@StronglySorted_merge_sort _ key_le _ key_le_trans key_le_total).
Qed.

(** X13 (create_pivot_table).  The rows of the pivot table come in ascending
    order of their key 5-tuples, compared field by field from the left and
    within a field by code points, as [groupby] sorts them: the key of a row
    is at most the key of every later row. *)
Theorem pivot_rows_sorted structure_df pivot_df :
  create_pivot_table structure_df = Some pivot_df →
  StronglySorted key_le (row_key groupby_cols <$> rows pivot_df).
Proof.
  intros [H ->]%create_pivot_table_inv. cbn [rows].
  rewrite pivot_row_keys by done. apply group_keys_sorted.
Qed.

Lemma pivot_rows_sorted_witness :
  ∃ pivot_df,
    create_pivot_table ex_structure_D = Some pivot_df
    ∧ StronglySorted key_le (row_key groupby_cols <$> rows pivot_df).
Proof.
  destruct (loaded_some (create_pivot_table ex_structure_D)) as [pivot_df E];
    [vm_compute; reflexivity|].
  exists pivot_df. split; [exact E|].
  exact (pivot_rows_sorted ex_structure_D pivot_df E).
Defined.

(** ** The aggregator and the matcher do not depend on the order of rows *)












(** ** The matcher: further properties *)

Lemma structure_key3_insert r (v : cell) :
  structure_key3 (<[ConfirmedByDocs := v]> r) = structure_key3 r.
Proof. unfold structure_key3. by rewrite !get_insert_ne by names_differ. Qed.

Lemma matched_volume_insert id_df r (v : cell) :
  matched_volume id_df (<[ConfirmedByDocs := v]> r) = matched_volume id_df r.
Proof. unfold matched_volume, matching_rows. by rewrite structure_key3_insert. Qed.

Lemma matched_volume_key id_df r1 r2 :
  structure_key3 r1 = structure_key3 r2 → matched_volume id_df r1 = matched_volume id_df r2.
Proof. intros H. unfold matched_volume, matching_rows. by rewrite H. Qed.

(** X16 (optimize_matching).  Matching again changes nothing: the matcher
    reads the three key columns only and overwrites ConfirmedByDocs, so that
    its result is a fixed point. *)
Theorem optimize_matching_idempotent pivot_df id_df :
  optimize_matching (optimize_matching pivot_df id_df) id_df
  = optimize_matching pivot_df id_df.
Proof.
  rewrite (optimize_matching_spec pivot_df id_df).
  destruct (can_match pivot_df id_df) eqn:E.
  - rewrite optimize_matching_spec.
    set (cols := if has_col pivot_df ConfirmedByDocs then columns pivot_df
                 else columns pivot_df ++ [ConfirmedByDocs]).
    assert (ConfirmedByDocs ∈ cols) as Hin.
    { unfold cols. destruct (has_col pivot_df ConfirmedByDocs) eqn:Eh.
      - by apply has_col_elem.
      - apply elem_of_app. right. constructor. }
    assert (∀ c, c ∈ columns pivot_df → c ∈ cols) as Hsub.
    { unfold cols. intros c Hc. destruct (has_col pivot_df ConfirmedByDocs); [done|].
      apply elem_of_app. by left. }
    apply can_match_true in E as [E1 E2].
    rewrite (proj2 (can_match_true _ id_df)) by (split; [done|]; cbn [columns]; auto).
    unfold has_col at 1. cbn [columns rows]. rewrite bool_decide_eq_true_2 by done.
    f_equal. rewrite <- list_fmap_compose. apply list_fmap_ext. intros i r _. simpl.
    rewrite matched_volume_insert. apply insert_insert_eq.
  - by rewrite optimize_matching_spec, E.
Qed.

(** X17 (optimize_matching).  The volume a structure row receives depends
    on its Project, Component and ClassifiedWorkType alone: two rows of the
    pivot table that agree in these three fields, whatever their Mark and
    unit, both receive the whole matched volume. *)
Theorem matched_volume_by_key_only pivot_df id_df i j r1 r2 :
  (∀ c, c ∈ required_id_cols → c ∈ columns id_df) →
  (∀ c, c ∈ structure_key_cols → c ∈ columns pivot_df) →
  rows pivot_df !! i = Some r1 → rows pivot_df !! j = Some r2 →
  structure_key3 r1 = structure_key3 r2 →
  ∃ out1 out2,
    rows (optimize_matching pivot_df id_df) !! i = Some out1
    ∧ rows (optimize_matching pivot_df id_df) !! j = Some out2
    ∧ get out1 ConfirmedByDocs = Num (matched_volume id_df r1)
    ∧ get out2 ConfirmedByDocs = Num (matched_volume id_df r1).
Proof.
  intros Hid Hst H1 H2 Hkey. rewrite optimize_matching_rows by done.
  rewrite !list_lookup_fmap, H1, H2. simpl. eexists _, _.
  split; [done|]. split; [done|]. rewrite !get_insert_eq.
  by rewrite (matched_volume_key id_df r2 r1).
Qed.

Lemma matched_volume_by_key_only_witness :
  ∃ out1 out2,
    rows (optimize_matching ex_pivot_two_marks ex_id_A) !! 0%nat = Some out1
    ∧ rows (optimize_matching ex_pivot_two_marks ex_id_A) !! 1%nat = Some out2
    ∧ get out1 ConfirmedByDocs = Num 80
    ∧ get out2 ConfirmedByDocs = Num 80.
Proof.
  assert (∀ c, c ∈ required_id_cols → c ∈ columns ex_id_A) as H1.
  { apply cols_present. vm_compute. reflexivity. }
  assert (∀ c, c ∈ structure_key_cols → c ∈ columns ex_pivot_two_marks) as H2.
  { apply cols_present. vm_compute. reflexivity. }
  destruct (matched_volume_by_key_only ex_pivot_two_marks ex_id_A 0 1 _ _ H1 H2
              eq_refl eq_refl) as (out1 & out2 & E1 & E2 & V1 & V2).
  { vm_compute. reflexivity. }
  exists out1, out2. split; [exact E1|]. split; [exact E2|].
  rewrite V1, V2. split; vm_compute; reflexivity.
Defined.




(** *** The separator of the composite key *)

Lemma bar_free_strip s : bar_free s → bar_free (strip s).
Proof.
  unfold bar_free. intros H Hin.
  assert (Forall (λ c, c ≠ 124) (strip s)) as HF.
  { apply Forall_strip. apply Forall_forall. by intros c Hc ->. }
  rewrite Forall_forall in HF. by apply (HF 124).
Qed.

(** X19 (optimize_matching).  On rows whose key fields are texts without the
    character '|', the composite key determines the three trimmed fields:
    rows with one key agree in all three. *)
Theorem composite_key_injective (a b c : list N) (r1 r2 : gmap (list N) cell)
    (x1 y1 z1 x2 y2 z2 : list N) :
  get r1 a = Text x1 → get r1 b = Text y1 → get r1 c = Text z1 →
  get r2 a = Text x2 → get r2 b = Text y2 → get r2 c = Text z2 →
  bar_free x1 → bar_free y1 → bar_free x2 → bar_free y2 →
  make_key a b c r1 = make_key a b c r2 →
  strip x1 = strip x2 ∧ strip y1 = strip y2 ∧ strip z1 = strip z2.
Proof.
  intros Ha1 Hb1 Hc1 Ha2 Hb2 Hc2 Hx1 Hy1 Hx2 Hy2. unfold make_key.
  rewrite Ha1, Hb1, Hc1, Ha2, Hb2, Hc2. simpl. intros [= E].
  rewrite <- !app_assoc in E. unfold SEP in E. simpl in E.
  apply split_at_bar in E as [E1 E]; [|by apply bar_free_strip..].
  injection E as E.
  apply split_at_bar in E as [E2 E]; [|by apply bar_free_strip..].
  by injection E as E.
Qed.

Lemma composite_key_injective_witness :
  strip (u " AB-12 ") = strip (u "AB-12") ∧ strip (u "Wall-1") = strip (u "Wall-1")
  ∧ strip (u "Concreting") = strip (u "Concreting ").
Proof.
  apply (composite_key_injective Project Component ClassifiedWorkType
           (structure_row (u " AB-12 ") (u "KZh") (u "Wall-1") (u "Concreting") (u "m3") 1)
           (structure_row (u "AB-12") (u "KM") (u "Wall-1") (u "Concreting ") (u "t") 2));
    try reflexivity; apply (bool_decide_unpack _); vm_compute; exact I.
Defined.

(** X20 (optimize_matching).  Without that proviso the key does not
    determine the fields: a '|' at the end of the first field and a '|' at
    the start of the second one give the same key, and the matcher then
    counts a documentation row for a structure row with other key fields. *)
Theorem separator_collision (id_df : DataFrame) (r d : gmap (list N) cell) (x y z : list N) :
  structure_key3 r = (x, 124 :: y, z) → id_key3 d = (x ++ [124], y, z) →
  d ∈ rows id_df → complete (id_key3 d) = true →
  d ∈ matching_rows id_df r ∧ structure_key3 r ≠ id_key3 d.
Proof.
  intros Hr Hd Hin Hc. split.
  - unfold matching_rows. apply elem_of_filter. split; [done|].
    rewrite Hc, Hr, Hd. apply bool_decide_eq_true_2.
    unfold joined. cbn [fst snd]. by rewrite <- !app_assoc.
  - rewrite Hr, Hd. intros [= E _]. apply (f_equal length) in E.
    rewrite length_app in E. simpl in E. lia.
Qed.

Lemma separator_collision_witness :
  (λ out, get out ConfirmedByDocs)
    <$> rows (optimize_matching (mkDF ex_structure_cols [ex_row_bar_right]) ex_id_bar_left)
  = [Num 50]
  ∧ structure_key3 ex_row_bar_right ≠ id_key3 (id_row (u "A|") (u "B") (u "C") 50).
Proof.
  split; [vm_compute; reflexivity|].
  refine (proj2 (separator_collision ex_id_bar_left ex_row_bar_right
                   (id_row (u "A|") (u "B") (u "C") 50) (u "A") (u "B") (u "C") _ _ _ _)).
  - vm_compute. reflexivity.
  - vm_compute. reflexivity.
  - constructor.
  - vm_compute. reflexivity.
Defined.

(** ** The report and the whole run *)

Lemma create_final_report_lookup pivot_df i j c r :
  NoDup (rename_columns report_names (columns pivot_df)) →
  columns pivot_df !! i = Some c → rows pivot_df !! j = Some r →
  display_name c ∈ column_order →
  ∃ out, rows (create_final_report pivot_df) !! j = Some out
         ∧ get out (display_name c) = get r c.
Proof.
  intros Hnd Hc Hr Hord.
  set (names := rename_columns report_names (columns pivot_df)) in *.
  exists (list_to_map
            ((λ n, (n, get (list_to_map (zip names ((λ c, get r c) <$> columns pivot_df))) n))
               <$> available column_order names)).
  assert (names !! i = Some (display_name c)) as Hn.
  { unfold names, rename_columns. by rewrite list_lookup_fmap, Hc. }
  split.
  - unfold create_final_report, select, set_columns. cbn [rows columns]. fold names.
    rewrite <- list_fmap_compose, list_lookup_fmap, Hr. reflexivity.
  - rewrite get_select_row, bool_decide_eq_true_2.
    + apply get_zip_lookup with i; [done|done|]. by rewrite list_lookup_fmap, Hc.
    + apply elem_of_available. split; [done|]. by eapply list_elem_of_lookup_2.
Qed.

(** X21 (create_final_report).  The report has the rows of the pivot table,
    in their order, and of its columns those whose display name is in the
    fixed column order, in that order and under that name, each with the
    values the pivot table has; every other column is dropped.  (The display
    names of the pivot columns are supposed distinct.) *)
Theorem create_final_report_table pivot_df :
  NoDup (rename_columns report_names (columns pivot_df)) →
  length (rows (create_final_report pivot_df)) = length (rows pivot_df)
  ∧ columns (create_final_report pivot_df)
    = List.filter (λ n, bool_decide (n ∈ display_name <$> columns pivot_df)) column_order
  ∧ ∀ i j c r, columns pivot_df !! i = Some c → rows pivot_df !! j = Some r →
      display_name c ∈ column_order →
      ∃ out, rows (create_final_report pivot_df) !! j = Some out
             ∧ get out (display_name c) = get r c.
Proof.
  intros Hnd. split; [|split].
  - unfold create_final_report, select, set_columns. cbn [rows]. by rewrite !length_fmap.
  - reflexivity.
  - intros i j c r. by apply create_final_report_lookup.
Qed.

Lemma create_final_report_table_witness :
  columns (create_final_report ex_pivot_extra)
  = [u "Проект"; u "Ед. изм."; u "Подтверждено ИД"]
  ∧ ∃ out, rows (create_final_report ex_pivot_extra) !! 0%nat = Some out
           ∧ get out (u "Подтверждено ИД") = Num 80.
Proof.
  assert (NoDup (rename_columns report_names (columns ex_pivot_extra))) as Hnd.
  { apply (bool_decide_unpack _). vm_compute. exact I. }
  destruct (create_final_report_table ex_pivot_extra Hnd) as (_ & _ & H).
  split; [vm_compute; reflexivity|].
  destruct (H 3%nat 0%nat ConfirmedByDocs _ eq_refl eq_refl) as (out & H1 & H2).
  { apply (bool_decide_unpack _). vm_compute. exact I. }
  assert (display_name ConfirmedByDocs = u "Подтверждено ИД") as Hd
    by (vm_compute; reflexivity).
  rewrite Hd in H2.
  exists out. split; [exact H1|]. rewrite H2. vm_compute. reflexivity.
Defined.

Lemma pivot_columns_display : rename_columns report_names pivot_columns = column_order.
Proof. vm_compute. reflexivity. Qed.

Lemma NoDup_column_order : NoDup column_order.
Proof. apply (bool_decide_unpack _). vm_compute. exact I. Qed.

Lemma confirmed_in_pivot_columns : ConfirmedByDocs ∈ pivot_columns.
Proof. unfold pivot_columns. rewrite !elem_of_app, list_elem_of_singleton. auto. Qed.

Lemma pivot_has_key_cols c : c ∈ structure_key_cols → c ∈ pivot_columns.
Proof.
  unfold structure_key_cols, pivot_columns, groupby_cols, structure_text_cols.
  rewrite !elem_of_cons, elem_of_nil, elem_of_app, !elem_of_cons. naive_solver.
Qed.

Section Run.

Variable lower_char : N → N.
Variable parse_number : list N → option Z.

(** The matcher applied to an aggregated table and a loaded documentation
    table. *)
Lemma matched_pivot structure_df pivot_df id_sheet id_df :
  create_pivot_table structure_df = Some pivot_df →
  load_id_data lower_char parse_number id_sheet = Some id_df →
  optimize_matching pivot_df id_df
  = {| columns := pivot_columns;
       rows := (λ r, <[ConfirmedByDocs := Num (matched_volume id_df r)]> r)
               <$> rows pivot_df |}.
Proof.
  intros [Hreq ->]%create_pivot_table_inv Hload.
  rewrite optimize_matching_spec. cbn [columns rows].
  destruct (can_match _ id_df) eqn:E.
  - unfold has_col. cbn [columns].
    by rewrite bool_decide_eq_true_2 by apply confirmed_in_pivot_columns.
  - f_equal. rewrite <- list_fmap_compose. rewrite <- (list_fmap_id (_ <$> _)) at 1.
    rewrite <- list_fmap_compose.
    apply list_fmap_ext. intros i k _. simpl.
    assert (rows id_df = []) as Hempty.
    { destruct (rows id_df) as [|d l] eqn:Er; [done|]. exfalso.
      destruct (load_id_data_inv _ _ _ _ Hload) as (Hdf & _ & _ & Hall).
      assert (columns id_df = id_needed_cols) as Hcols.
      { rewrite <- Hall by (by rewrite Er). rewrite Hdf. cbn [filter_rows columns].
        by destruct (id_cleaned_spec lower_char parse_number id_sheet) as [-> _]. }
      assert (can_match
                {| columns := pivot_columns;
                   rows := pivot_row structure_df <$>
                     group_keys groupby_cols
                       (clean_groupby_cols (add_numeric_cols structure_df)) |} id_df
              = true) as E'; [|congruence].
      apply can_match_true. split.
      - intros c Hc. by rewrite Hcols.
      - intros c Hc. by apply pivot_has_key_cols. }
    unfold matched_volume, matching_rows. rewrite Hempty. simpl.
    unfold pivot_row. by rewrite insert_insert_eq.
Qed.

(** X22 (process_files).  A run that writes a report has loaded both
    tables and aggregated the structure table; the report has exactly the
    nine columns of the fixed order and one row for each row of the pivot
    table, in its order, with the five identifying fields and the three
    volumes of that row under their display names and, as confirmed volume,
    the volume matched from the loaded documentation table. *)
Theorem process_files_report structure_sheet id_sheet report :
  process_files lower_char parse_number structure_sheet id_sheet = Some report →
  ∃ structure_df id_df pivot_df,
    load_structure_data lower_char parse_number structure_sheet = Some structure_df
    ∧ load_id_data lower_char parse_number id_sheet = Some id_df
    ∧ create_pivot_table structure_df = Some pivot_df
    ∧ columns report = column_order
    ∧ length (rows report) = length (rows pivot_df)
    ∧ ∀ j r, rows pivot_df !! j = Some r →
        ∃ out, rows report !! j = Some out
               ∧ (∀ c, c ∈ groupby_cols ++ numeric_cols →
                       get out (display_name c) = get r c)
               ∧ get out (display_name ConfirmedByDocs) = Num (matched_volume id_df r).
Proof.
  unfold process_files. intros H.
  destruct (load_structure_data _ _ _) as [structure_df|] eqn:E1; [|done].
  destruct (load_id_data _ _ _) as [id_df|] eqn:E2; [|done].
  cbn [mbind option_bind] in H.
  destruct (create_pivot_table structure_df) as [pivot_df|] eqn:E3; [|done].
  injection H as <-.
  exists structure_df, id_df, pivot_df. do 3 (split; [done|]).
  rewrite (matched_pivot _ _ _ _ E3 E2).
  set (matched := {| columns := pivot_columns; rows := _ |}).
  assert (NoDup (rename_columns report_names (columns matched))) as Hnd.
  { cbn [matched columns]. rewrite pivot_columns_display. apply NoDup_column_order. }
  split; [|split].
  - unfold create_final_report, select, set_columns. cbn [columns matched].
    rewrite pivot_columns_display. apply available_all. auto.
  - unfold create_final_report, select, set_columns. cbn [rows matched].
    by rewrite !length_fmap.
  - intros j r Hr.
    assert (rows matched !! j
            = Some (<[ConfirmedByDocs := Num (matched_volume id_df r)]> r)) as Hm.
    { cbn [matched rows]. by rewrite list_lookup_fmap, Hr. }
    assert (∀ c, c ∈ pivot_columns →
              ∃ out, rows (create_final_report matched) !! j = Some out
                     ∧ get out (display_name c)
                       = get (<[ConfirmedByDocs := Num (matched_volume id_df r)]> r) c)
      as Hval.
    { intros c [i Hi]%list_elem_of_lookup_1.
      apply (create_final_report_lookup matched i j c _ Hnd Hi Hm).
      rewrite <- pivot_columns_display. unfold rename_columns.
      apply list_elem_of_fmap. exists c. split; [done|]. by eapply list_elem_of_lookup_2. }
    destruct (Hval ConfirmedByDocs confirmed_in_pivot_columns) as (out & Hout & Hconf).
    exists out. split; [done|]. split.
    + intros c Hc. destruct (Hval c) as (out' & Hout' & Hv).
      { unfold pivot_columns. rewrite app_assoc, elem_of_app. by left. }
      assert (out' = out) as -> by congruence.
      rewrite Hv. apply get_insert_ne. intros <-. by apply confirmed_not_grouped.
    + by rewrite Hconf, get_insert_eq.
Qed.

(** X23 (process_files).  A run ends without a report exactly when a load
    returns no table or one of the five identifying fields of the structure
    sheet is not recognized: three or four of them pass the threshold of the
    load, and the aggregation then refuses the table. *)
Theorem process_files_fails_exactly structure_sheet id_sheet :
  process_files lower_char parse_number structure_sheet id_sheet = None ↔
  load_structure_data lower_char parse_number structure_sheet = None
  ∨ load_id_data lower_char parse_number id_sheet = None
  ∨ ∃ c, c ∈ structure_text_cols ∧ c ∉ structure_columns lower_char structure_sheet.
Proof.
  unfold process_files.
  destruct (load_structure_data _ _ _) as [structure_df|] eqn:E1; [|naive_solver].
  destruct (load_id_data _ _ _) as [id_df|] eqn:E2; [|naive_solver].
  destruct (load_structure_data_inv _ _ _ _ E1) as (_ & _ & _ & Hcols & _).
  simpl. rewrite <- Hcols.
  destruct (create_pivot_table structure_df) as [pivot_df|] eqn:E3; simpl.
  - split; [done|]. intros [?|[?|H]]; [done|done|].
    apply create_pivot_table_none in H. congruence.
  - split; [|done]. intros _. right. right. by apply create_pivot_table_none.
Qed.

End Run.

(** ** The whole run on example sheets; normalize_text once more *)

Lemma process_files_report_witness :
  ∃ report,
    process_files lower_latin_cyrillic parse_unsigned ex_structure_raw ex_id_raw = Some report
    ∧ columns report = column_order.
Proof.
  destruct (loaded_some
              (process_files lower_latin_cyrillic parse_unsigned ex_structure_raw ex_id_raw))
    as [report E]; [vm_compute; reflexivity|].
  destruct (process_files_report _ _ _ _ _ E) as (_ & _ & _ & _ & _ & _ & H & _).
  exists report. split; [exact E|exact H].
Defined.

Lemma Forall_sub_spaces_blank s : Forall (λ c, isspace c = true → c = 32) (sub_spaces s).
Proof.
  induction s as [|c s IH]; simpl; [constructor|].
  destruct (isspace c) eqn:E.
  - destruct s as [|c' s]; [by repeat constructor|].
    destruct (isspace c'); [done|by constructor].
  - constructor; [congruence|done].
Qed.

(** X24 (normalize_text).  Whatever the input, the normalized text holds
    word characters and blanks (U+0020) only: no punctuation and no other
    whitespace character is left. *)
Theorem normalize_text_alphabet (lower_char : N → N) (isword : N → bool) (v : cell) (c : N) :
  c ∈ normalize_text lower_char isword v → isword c = true ∨ c = 32.
Proof.
  destruct v as [s| |]; simpl; [|by intros ?%elem_of_nil..].
  unfold sub_punct. intros [Hin Hc]%elem_of_filter.
  apply orb_true_iff in Hc as [Hc|Hc]; [by left|right].
  pose proof (Forall_sub_spaces_blank (strip (lower lower_char s))) as H.
  rewrite Forall_forall in H. by apply H.
Qed.

Lemma normalize_text_alphabet_witness :
  isword_latin_cyrillic 98 = true ∨ 98 = 32.
Proof.
  apply (normalize_text_alphabet lower_latin_cyrillic isword_latin_cyrillic
           (Text (u "a . B")) 98).
  apply (bool_decide_unpack _). vm_compute. exact I.
Defined.

Lemma sub_punct_clean isword s : no_punctuation isword (sub_punct isword s).
Proof.
  unfold no_punctuation, sub_punct. apply Forall_forall.
  by intros c [_ Hc]%elem_of_filter.
Qed.

(** X25 (normalize_text).  Normalization settles after two passes: a third
    pass changes nothing, whatever the input.  (Of [str.lower] and [\w] the
    statement assumes what the amended idempotence assumes.) *)
Theorem normalize_text_settles (lower_char : N → N) (isword : N → bool) (v : cell) :
  (∀ c, lower_char (lower_char c) = lower_char c) →
  (∀ c, isspace c = true → lower_char c = c) →
  (∀ c, isspace c = false → isspace (lower_char c) = false) →
  (∀ c, isword c = true → isword (lower_char c) = true) →
  normalize_text lower_char isword
    (Text (normalize_text lower_char isword (Text (normalize_text lower_char isword v))))
  = normalize_text lower_char isword (Text (normalize_text lower_char isword v)).
Proof.
  intros Hidem Hspace Hnot Hword.
  assert (no_punctuation isword (normalize_text lower_char isword v)) as Hclean.
  { destruct v; simpl; [apply sub_punct_clean|constructor..]. }
  destruct (normalize_text_no_punctuation lower_char isword Hspace Hnot Hword _ Hclean)
    as [-> Hn].
  destruct (normalize_text_no_punctuation lower_char isword Hspace Hnot Hword _ Hn)
    as [-> _].
  rewrite (lower_sub_spaces lower_char Hspace Hnot), (lower_strip lower_char Hspace Hnot),
    (lower_lower lower_char Hidem).
  rewrite strip_sub_spaces_fixed by (apply lstrip_strip || apply rstrip_strip).
  apply sub_spaces_idemp.
Qed.

Lemma normalize_text_settles_witness :
  normalize_text lower_latin_cyrillic isword_latin_cyrillic
    (Text (normalize_text lower_latin_cyrillic isword_latin_cyrillic
             (Text (normalize_text lower_latin_cyrillic isword_latin_cyrillic
                      (Text (u "a . b"))))))
  = normalize_text lower_latin_cyrillic isword_latin_cyrillic
      (Text (normalize_text lower_latin_cyrillic isword_latin_cyrillic (Text (u "a . b")))).
Proof.
  exact (normalize_text_settles lower_latin_cyrillic isword_latin_cyrillic (Text (u "a . b"))
           lower_latin_cyrillic_idemp lower_latin_cyrillic_space
           lower_latin_cyrillic_not_space lower_latin_cyrillic_word).
Defined.

(** ** The classifiers and the header cleaning once more *)

Section Range.

Variable lower_char : N → N.
Variable rules : list (list N * (list N → bool)).


End Range.



(** *** Cleaning a cleaned header list *)

Lemma digits_range d : Forall (λ c, 48 ≤ c ≤ 57) (digits_of_uint d).
Proof. induction d; simpl; constructor; (lia || done). Qed.

Lemma to_uint_nonnil n : Nat.to_uint n ≠ Decimal.Nil.
Proof.
  rewrite <- (DecimalNat.Unsigned.of_to n) at 1. rewrite DecimalNat.Unsigned.to_of.
  apply DecimalFacts.unorm_nonnil.
Qed.

Lemma str_of_nat_last k : ∃ t x, str_of_nat k = t ++ [x] ∧ isspace x = false.
Proof.
  unfold str_of_nat. pose proof (digits_range (Nat.to_uint k)) as HF.
  pose proof (to_uint_nonnil k) as Hn.
  set (l := digits_of_uint (Nat.to_uint k)) in *.
  assert (l = rev (rev l)) as El by (by rewrite rev_involutive).
  destruct (rev l) as [|x t] eqn:Er.
  - exfalso. simpl in El. unfold l in El.
    destruct (Nat.to_uint k); simpl in El; congruence.
  - simpl in El. exists (rev t), x. split; [done|].
    rewrite Forall_forall in HF.
    assert (48 ≤ x ≤ 57) as Hx.
    { apply HF. rewrite El, elem_of_app, list_elem_of_singleton. by right. }
    apply isspace_false_low. lia.
Qed.

Lemma strip_dup_name s k : lstrip s = s → strip (dup_name s k) = dup_name s k.
Proof.
  intros Hs. unfold strip, dup_name.
  destruct (str_of_nat_last k) as (t & x & -> & Hx).
  assert (lstrip (s ++ u "_dup" ++ t ++ [x]) = s ++ u "_dup" ++ t ++ [x]) as ->.
  { destruct s as [|a s]; [done|].
    apply lstrip_fixed_head in Hs. simpl. by rewrite Hs. }
  rewrite !app_assoc. by apply rstrip_snoc.
Qed.

Lemma strip_renamed c n : renamed_from (strip c) n → strip n = n.
Proof.
  intros [->|(k & _ & ->)]; [apply strip_idemp|].
  apply strip_dup_name, lstrip_strip.
Qed.

Lemma clean_column_names_stripped cols :
  strip <$> clean_column_names cols = clean_column_names cols.
Proof.
  pose proof (clean_column_names_renamed cols) as H.
  rewrite <- (list_fmap_id (clean_column_names cols)) at 2.
  apply list_fmap_ext. intros i n Hn. simpl.
  destruct (Forall2_lookup_r _ _ _ _ _ H Hn) as (c' & Hc' & Hr).
  apply list_lookup_fmap_Some in Hc' as (c & -> & _). by eapply strip_renamed.
Qed.

Lemma clean_column_names_idemp cols :
  clean_column_names (clean_column_names cols) = clean_column_names cols.
Proof.
  unfold clean_column_names at 1. rewrite clean_column_names_stripped.
  by rewrite bool_decide_eq_true_2 by apply NoDup_clean_column_names.
Qed.

Lemma lookup_zip_lookup (names : list (list N)) (vals : list cell) i n v :
  NoDup names → names !! i = Some n → vals !! i = Some v →
  (list_to_map (zip names vals) : gmap (list N) cell) !! n = Some v.
Proof.
  intros Hnd Hn Hv. apply elem_of_list_to_map_1'.
  - intros y [j Hj]%list_elem_of_lookup_1. apply lookup_zip_Some in Hj as [Hj1 Hj2].
    assert (j = i) as -> by (by eapply NoDup_lookup). congruence.
  - apply list_elem_of_lookup_2 with i. by apply lookup_zip_Some.
Qed.

Lemma list_to_map_zip_get (names : list (list N)) (vals : list cell) :
  NoDup names → length vals = length names →
  (list_to_map
     (zip names ((λ c, get (list_to_map (zip names vals) : gmap (list N) cell) c) <$> names))
   : gmap (list N) cell)
  = list_to_map (zip names vals).
Proof.
  intros Hnd Hlen. apply map_eq. intros k.
  destruct (decide (k ∈ names)) as [Hin|Hn].
  - apply list_elem_of_lookup_1 in Hin as [i Hi].
    destruct (lookup_lt_is_Some_2 vals i) as [v Hv].
    { rewrite Hlen. by eapply lookup_lt_Some. }
    rewrite (lookup_zip_lookup names vals i k v) by done.
    apply lookup_zip_lookup with i; [done|done|].
    rewrite list_lookup_fmap, Hi. simpl. f_equal. unfold get.
    by rewrite (lookup_zip_lookup names vals i k v).
  - rewrite !not_elem_of_list_to_map_1; [done|..];
      intros ([k' x] & -> & H%elem_of_zip_l)%list_elem_of_fmap; done.
Qed.

(** X27 (clean_dataframe_columns).  Cleaning the headers of a table whose
    headers have been cleaned changes nothing, neither a name nor a value:
    a name with a suffix [_dup<k>] has no whitespace at its ends and the
    cleaned names are distinct. *)
Theorem clean_dataframe_columns_idempotent df :
  clean_dataframe_columns (clean_dataframe_columns df) = clean_dataframe_columns df.
Proof.
  set (D := clean_dataframe_columns df).
  assert (columns D = clean_column_names (columns df)) as HcD by reflexivity.
  unfold clean_dataframe_columns at 1. rewrite HcD, clean_column_names_idemp.
  unfold D, clean_dataframe_columns, set_columns. cbn [rows columns].
  f_equal. rewrite <- list_fmap_compose.
  apply list_fmap_ext. intros j r _. simpl.
  apply list_to_map_zip_get; [apply NoDup_clean_column_names|].
  by rewrite length_fmap, length_clean_column_names.
Qed.
